(** * pod-watcher: the pod IP index of [main.py]

    A shallow embedding of [src/main.py]: the objects of the Kubernetes
    client that the program reads, the metadata extractor, the watcher
    thread ([watch_pods]) and the HTTP handlers, followed by the properties
    of the index that the specification states.

    The program keeps one global dictionary [pod_map] guarded by one lock
    [pod_map_lock].  Every function of the program that touches the
    dictionary is embedded as a computation in the monad [Prog]: it takes the
    dictionary, and gives back an outcome (a value or a raised exception),
    the dictionary as it left it, and the list of the actions it performed
    (network calls, lock operations, dictionary accesses, log calls and
    sleeps), in program order. *)

From Stdlib Require Import ZArith String.
From stdpp Require Import base option list gmap strings fin_maps.

Local Open Scope Z_scope.
Local Open Scope string_scope.
Local Open Scope list_scope.

(** ** Objects of the Kubernetes client

    The classes of [kubernetes.client] are plain attribute holders; an
    attribute that the API server did not send is [None].  Each class is a
    record in a module of its name, with the attributes the program reads. *)

Module V1ObjectMeta.
Record t := mk {
  name : option string;
  namespace : option string;
  uid : option string;
  labels : option (gmap string string);
  annotations : option (gmap string string)
}.
End V1ObjectMeta.

Module V1ContainerPort.
Record t := mk {
  container_port : Z;
  protocol : option string
}.
End V1ContainerPort.

Module V1Container.
Record t := mk {
  name : option string;
  image : option string;
  ports : option (list V1ContainerPort.t)
}.
End V1Container.

Module V1PodSpec.
Record t := mk {
  node_name : option string;
  containers : option (list V1Container.t)
}.
End V1PodSpec.

Module V1PodCondition.
Record t := mk {
  type : option string;
  status : option string;
  reason : option string;
  message : option string
}.
End V1PodCondition.

(** A [datetime.datetime]: the program calls nothing but [isoformat()] on
    it, so the object is represented by what that method returns.  A
    [datetime] is always true in a condition. *)
Module datetime.
Record t := mk { isoformat : string }.
End datetime.

Module V1PodStatus.
Record t := mk {
  phase : option string;
  pod_ip : option string;
  host_ip : option string;
  start_time : option datetime.t;
  conditions : option (list V1PodCondition.t)
}.
End V1PodStatus.

Module V1Pod.
Record t := mk {
  metadata : option V1ObjectMeta.t;
  spec : option V1PodSpec.t;
  status : option V1PodStatus.t
}.
End V1Pod.

(** ** The metadata record

    The dictionary built by [extract_pod_metadata], one field per key, with
    the keys' names. *)

Module Condition.
Record t := mk {
  type : option string;
  status : option string;
  reason : option string;
  message : option string
}.
End Condition.

Module Port.
Record t := mk {
  containerPort : Z;
  protocol : option string
}.
End Port.

Module Container.
Record t := mk {
  name : option string;
  image : option string;
  ports : list Port.t
}.
End Container.

Module Metadata.
Record t := mk {
  name : option string;
  namespace : option string;
  uid : option string;
  labels : gmap string string;
  annotations : gmap string string;
  node_name : option string;
  phase : option string;
  pod_ip : option string;
  host_ip : option string;
  start_time : option string;
  conditions : list Condition.t;
  containers : list Container.t
}.
End Metadata.

(** ** Exceptions and outcomes

    The exceptions of the model are instances of Python's [Exception], the
    class that the handlers of [watch_pods] catch: [AttributeError] is what
    reading an attribute of [None] raises, [KeyError] what a dictionary
    raises for a key it does not hold, and [ApiError] stands for whatever
    the Kubernetes client raises (connection errors, timeouts, bad
    payloads). *)

Inductive Exception :=
| AttributeError (attribute : string)
| KeyError (key : string)
| ApiError (reason : string).

Inductive outcome (A : Type) :=
| Returns (a : A)
| Raises (e : Exception).
Arguments Returns {A} a.
Arguments Raises {A} e.

(** [o.attr] where [o] may be [None]. *)
Definition getattr {O A : Type} (o : option O) (attribute : string)
    (field : O -> A) : outcome A :=
  match o with
  | Some x => Returns (field x)
  | None => Raises (AttributeError attribute)
  end.

(** Python's truth value of a string. *)
Definition truthy (s : string) : bool := negb (String.eqb s "").

(** ** Actions *)

Inductive level := DEBUG | INFO | ERROR.

Inductive action :=
| ListPods                  (* v1.list_pod_for_all_namespaces() *)
| OpenStream                (* w.stream(v1.list_pod_for_all_namespaces, ...) *)
| NextEvent                 (* the generator is asked for its next event *)
| Acquire                   (* pod_map_lock.__enter__ *)
| Release                   (* pod_map_lock.__exit__ *)
| SetItem (ip : string)     (* pod_map[ip] = ... *)
| DelItem (ip : string)     (* del pod_map[ip] *)
| Contains (ip : string)    (* ip in pod_map *)
| GetItem (ip : string)     (* pod_map[ip] *)
| Items                     (* pod_map.items(), or pod_map handed to jsonify *)
| Len                       (* len(pod_map) *)
| Log (lvl : level)         (* logger.debug / info / error *)
| Sleep (seconds : Z).      (* time.sleep *)

(** ** The monad of the program *)

Record run (A : Type) := Run {
  result : outcome A;
  final : gmap string Metadata.t;
  trace : list action
}.
Arguments Run {A} result final trace.
Arguments result {A} r.
Arguments final {A} r.
Arguments trace {A} r.

Definition Prog (A : Type) : Type := gmap string Metadata.t -> run A.

Definition ret {A} (a : A) : Prog A := fun m => Run (Returns a) m [].

Definition raise {A} (e : Exception) : Prog A := fun m => Run (Raises e) m [].

Definition bind {A B} (p : Prog A) (k : A -> Prog B) : Prog B :=
  fun m =>
    let r := p m in
    match result r with
    | Returns a =>
        let r' := k a (final r) in
        Run (result r') (final r') (trace r ++ trace r')
    | Raises e => Run (Raises e) (final r) (trace r)
    end.

Notation "x <- p ;; k" := (bind p (fun x => k))
  (at level 100, p at next level, right associativity).
Notation "p ;; k" := (bind p (fun _ => k))
  (at level 100, right associativity).

(** A pure expression that may raise. *)
Definition eval {A} (o : outcome A) : Prog A :=
  fun m => Run o m [].

Definition emit (a : action) : Prog unit := fun m => Run (Returns tt) m [a].

(** [try: p  except Exception as e: handler(e)] *)
Definition try_except {A} (p : Prog A) (handler : Exception -> Prog A) : Prog A :=
  fun m =>
    let r := p m in
    match result r with
    | Returns a => r
    | Raises e =>
        let r' := handler e (final r) in
        Run (result r') (final r') (trace r ++ trace r')
    end.

(** [with pod_map_lock: p]: the lock is released on the way out, whether
    [p] returns or raises. *)
Definition with_pod_map_lock {A} (p : Prog A) : Prog A :=
  fun m =>
    let r := p m in
    Run (result r) (final r) (Acquire :: trace r ++ [Release]).

(** [for x in xs: body(x)] *)
Fixpoint for_each {X} (xs : list X) (body : X -> Prog unit) : Prog unit :=
  match xs with
  | [] => ret tt
  | x :: xs' => body x ;; for_each xs' body
  end.

(** The dictionary operations. *)
Definition setitem (ip : string) (record : Metadata.t) : Prog unit :=
  fun m => Run (Returns tt) (<[ip := record]> m) [SetItem ip].

Definition delitem (ip : string) : Prog unit :=
  fun m =>
    match m !! ip with
    | Some _ => Run (Returns tt) (delete ip m) [DelItem ip]
    | None => Run (Raises (KeyError ip)) m [DelItem ip]
    end.

Definition contains (ip : string) : Prog bool :=
  fun m =>
    Run (Returns match m !! ip with Some _ => true | None => false end) m
        [Contains ip].

Definition getitem (ip : string) : Prog Metadata.t :=
  fun m =>
    match m !! ip with
    | Some record => Run (Returns record) m [GetItem ip]
    | None => Run (Raises (KeyError ip)) m [GetItem ip]
    end.

Definition items : Prog (gmap string Metadata.t) :=
  fun m => Run (Returns m) m [Items].

Definition len : Prog nat :=
  fun m => Run (Returns (size m)) m [Len].

Definition log (lvl : level) : Prog unit := emit (Log lvl).

(** ** [extract_pod_metadata]

    A pure function: it reads the pod and builds the record, raising
    [AttributeError] when [pod.metadata], [pod.spec] or [pod.status] is
    [None].  The attributes are read in the order of the source. *)

Definition and_then {A B} (o : outcome A) (k : A -> outcome B) : outcome B :=
  match o with
  | Returns a => k a
  | Raises e => Raises e
  end.

Notation "'let*' x := o 'in' k" := (and_then o (fun x => k))
  (at level 10, x name, o at level 100, k at level 200).

Definition extract_condition (condition : V1PodCondition.t) : Condition.t :=
  {| Condition.type := V1PodCondition.type condition;
     Condition.status := V1PodCondition.status condition;
     Condition.reason := V1PodCondition.reason condition;
     Condition.message := V1PodCondition.message condition |}.

Definition extract_port (p : V1ContainerPort.t) : Port.t :=
  {| Port.containerPort := V1ContainerPort.container_port p;
     Port.protocol := V1ContainerPort.protocol p |}.

Definition extract_container (container : V1Container.t) : Container.t :=
  {| Container.name := V1Container.name container;
     Container.image := V1Container.image container;
     Container.ports :=
       map extract_port (default [] (V1Container.ports container)) |}.

Definition extract_pod_metadata (pod : V1Pod.t) : outcome Metadata.t :=
  let* name := getattr (V1Pod.metadata pod) "name" V1ObjectMeta.name in
  let* namespace := getattr (V1Pod.metadata pod) "namespace" V1ObjectMeta.namespace in
  let* uid := getattr (V1Pod.metadata pod) "uid" V1ObjectMeta.uid in
  let* labels := getattr (V1Pod.metadata pod) "labels" V1ObjectMeta.labels in
  let* annotations := getattr (V1Pod.metadata pod) "annotations" V1ObjectMeta.annotations in
  let* node_name := getattr (V1Pod.spec pod) "node_name" V1PodSpec.node_name in
  let* phase := getattr (V1Pod.status pod) "phase" V1PodStatus.phase in
  let* pod_ip := getattr (V1Pod.status pod) "pod_ip" V1PodStatus.pod_ip in
  let* host_ip := getattr (V1Pod.status pod) "host_ip" V1PodStatus.host_ip in
  let* start_time := getattr (V1Pod.status pod) "start_time" V1PodStatus.start_time in
  let* conditions := getattr (V1Pod.status pod) "conditions" V1PodStatus.conditions in
  let* containers := getattr (V1Pod.spec pod) "containers" V1PodSpec.containers in
  Returns
    {| Metadata.name := name;
       Metadata.namespace := namespace;
       Metadata.uid := uid;
       Metadata.labels := default ∅ labels;
       Metadata.annotations := default ∅ annotations;
       Metadata.node_name := node_name;
       Metadata.phase := phase;
       Metadata.pod_ip := pod_ip;
       Metadata.host_ip := host_ip;
       Metadata.start_time := datetime.isoformat <$> start_time;
       Metadata.conditions := map extract_condition (default [] conditions);
       Metadata.containers := map extract_container (default [] containers) |}.

(** ** [watch_pods]

    What the API server answers is the input of the watcher: the outcome of
    the initial listing, and the sessions of the watch stream, one for each
    time the [while True] loop opens it.  A session delivers its events and
    then ends, either because the generator is exhausted or because it
    raises. *)

Module Event.
Record t := mk {
  type : string;
  object : V1Pod.t
}.
End Event.

Module Session.
Record t := mk {
  events : list Event.t;
  ending : option Exception
}.
End Session.

(** [if pod_ip: body(pod_ip)] for a [pod_ip] that is a string or [None]. *)
Definition if_truthy (pod_ip : option string) (body : string -> Prog unit) : Prog unit :=
  match pod_ip with
  | Some ip => if truthy ip then body ip else ret tt
  | None => ret tt
  end.

(** Lines 97-98, the body of the loop over [pod_list.items]. *)
Definition index_listed_pod (pod : V1Pod.t) : Prog unit :=
  pod_ip <- eval (getattr (V1Pod.status pod) "pod_ip" V1PodStatus.pod_ip) ;;
  if_truthy pod_ip (fun ip =>
    record <- eval (extract_pod_metadata pod) ;;
    setitem ip record).

(** Lines 93-101, the initial listing. *)
Definition initial_listing (listing : outcome (list V1Pod.t)) : Prog unit :=
  try_except
    (emit ListPods ;;
     pod_list <- eval listing ;;
     with_pod_map_lock (for_each pod_list index_listed_pod) ;;
     len ;;
     log INFO)
    (fun e => log ERROR).

(** Lines 114-121, the body of [with pod_map_lock] in the stream loop. *)
Definition apply_event (event_type : string) (pod_ip : option string)
    (pod : V1Pod.t) : Prog unit :=
  if String.eqb event_type "ADDED" || String.eqb event_type "MODIFIED" then
    if_truthy pod_ip (fun ip =>
      record <- eval (extract_pod_metadata pod) ;;
      setitem ip record ;;
      log INFO)
  else if String.eqb event_type "DELETED" then
    if_truthy pod_ip (fun ip =>
      present <- contains ip ;;
      if present : bool then delitem ip ;; log INFO else ret tt)
  else ret tt.

(** Lines 107-121, the body of the loop over the stream.  The debug message
    of line 111 reads [pod.metadata.name] whatever the log level is. *)
Definition handle_event (event : Event.t) : Prog unit :=
  let event_type := Event.type event in
  let pod := Event.object event in
  pod_ip <- eval (getattr (V1Pod.status pod) "pod_ip" V1PodStatus.pod_ip) ;;
  eval (getattr (V1Pod.metadata pod) "name" V1ObjectMeta.name) ;;
  log DEBUG ;;
  with_pod_map_lock (apply_event event_type pod_ip pod).

(** Line 106, [for event in w.stream(...)], over one session. *)
Definition consume_stream (s : Session.t) : Prog unit :=
  emit OpenStream ;;
  for_each (Session.events s) (fun event => emit NextEvent ;; handle_event event) ;;
  emit NextEvent ;;
  match Session.ending s with
  | None => ret tt
  | Some e => raise e
  end.

(** Lines 123-127, the handler of the stream loop. *)
Definition restart_after (e : Exception) : Prog unit :=
  log ERROR ;; log INFO ;; emit (Sleep 5).

(** Lines 104-127, [while True], for as many sessions as the server gives.
    The loop has no [break] and no [return]: when the sessions of the input
    are used up the thread is at line 106 again, about to open the stream. *)
Fixpoint watch_stream (sessions : list Session.t) : Prog unit :=
  match sessions with
  | [] => ret tt
  | s :: rest => try_except (consume_stream s) restart_after ;; watch_stream rest
  end.

Definition watch_pods (listing : outcome (list V1Pod.t))
    (sessions : list Session.t) : Prog unit :=
  log INFO ;;
  initial_listing listing ;;
  watch_stream sessions.

(** ** The HTTP handlers

    A handler returns [jsonify(body), status]. *)

Inductive body :=
| ErrorBody (error : string)
| StatusBody (status : string) (pod_count : nat)
| PodBody (metadata : Metadata.t)
| PodsBody (pods : gmap string Metadata.t) (count : nat).

Definition response : Type := body * Z.

Definition health : Prog response :=
  n <- len ;;
  ret (StatusBody "healthy" n, 200).

Definition ready : Prog response :=
  n <- len ;;
  if (0 <? n)%nat then
    n' <- len ;;
    ret (StatusBody "ready" n', 200)
  else ret (StatusBody "not ready" 0, 503).

(** [ip] is [request.args.get('ip')]: [None] when the query string has no
    [ip], the string given otherwise. *)
Definition get_pod_by_ip (ip : option string) : Prog response :=
  match ip with
  | Some ip =>
      if truthy ip then
        with_pod_map_lock
          (present <- contains ip ;;
           if present : bool then
             record <- getitem ip ;;
             ret (PodBody record, 200)
           else ret (ErrorBody ("No pod found with IP " +:+ ip), 404))
      else ret (ErrorBody "IP parameter is required", 400)
  | None => ret (ErrorBody "IP parameter is required", 400)
  end.

Definition get_all_pods (namespace : option string) : Prog response :=
  with_pod_map_lock
    (match namespace with
     | Some ns =>
         if truthy ns then
           pods <- items ;;
           let filtered_pods :=
             filter (fun kv => Metadata.namespace kv.2 = Some ns) pods in
           ret (PodsBody filtered_pods (size filtered_pods), 200)
         else
           pods <- items ;; n <- len ;; ret (PodsBody pods n, 200)
     | None =>
         pods <- items ;; n <- len ;; ret (PodsBody pods n, 200)
     end).


(** ** [load_kubernetes_config]

    The two loaders of [kubernetes.config] are the input: each one loads a
    configuration, or raises [config.ConfigException], or raises something
    else.  The function returns, or leaves the process through
    [sys.exit(1)], or lets an exception that is not a [ConfigException]
    through. *)

Inductive loading :=
| Loaded
| ConfigException
| OtherException (e : Exception).

Inductive startup_action :=
| LoadIncluster             (* config.load_incluster_config() *)
| LoadKubeConfig            (* config.load_kube_config() *)
| StartupLog (lvl : level). (* logger.info / logger.error *)

Inductive startup :=
| Configured
| SystemExit (code : Z)
| Propagated (e : Exception).

Definition load_kubernetes_config (incluster local : loading)
    : startup * list startup_action :=
  match incluster with
  | Loaded => (Configured, [LoadIncluster; StartupLog INFO])
  | ConfigException =>
      match local with
      | Loaded => (Configured, [LoadIncluster; LoadKubeConfig; StartupLog INFO])
      | ConfigException =>
          (SystemExit 1, [LoadIncluster; LoadKubeConfig; StartupLog ERROR])
      | OtherException e => (Propagated e, [LoadIncluster; LoadKubeConfig])
      end
  | OtherException e => (Propagated e, [LoadIncluster])
  end.
(** * What the specification speaks about *)

(** ** Well-formed pods

    A pod none of whose three parts is [None]: [extract_pod_metadata]
    returns exactly on these, and raises [AttributeError] on the others. *)
Definition well_formed (pod : V1Pod.t) : bool :=
  match V1Pod.metadata pod, V1Pod.spec pod, V1Pod.status pod with
  | Some _, Some _, Some _ => true
  | _, _, _ => false
  end.

(** ** Invariants of the dictionary *)

Definition preserves {A} (I : gmap string Metadata.t -> Prop) (p : Prog A) : Prop :=
  forall m, I m -> I (final (p m)).

(** Every record is stored under the address it carries. *)
Definition key_agrees (m : gmap string Metadata.t) : Prop :=
  forall address record,
    m !! address = Some record -> Metadata.pod_ip record = Some address.

(** ** Apply operations

    Following the specification: an event of kind created or updated whose
    resource has a defined address is an [upsert] of the extracted record at
    that address, a deleted event whose resource has a defined address is a
    [remove] at it, and any other event applies nothing. *)

Inductive operation :=
| upsert (record : Metadata.t)
| remove.

(** The operation that [event] applies at [address], if it applies one
    there. *)
Definition operation_on (address : string) (event : Event.t) : option operation :=
  match V1Pod.status (Event.object event) with
  | Some status =>
      match V1PodStatus.pod_ip status with
      | Some ip =>
          if truthy ip && String.eqb ip address then
            if String.eqb (Event.type event) "ADDED"
               || String.eqb (Event.type event) "MODIFIED" then
              match extract_pod_metadata (Event.object event) with
              | Returns record => Some (upsert record)
              | Raises _ => None
              end
            else if String.eqb (Event.type event) "DELETED" then Some remove
            else None
          else None
      | None => None
      end
  | None => None
  end.

(** The last operation applied at [address] by a sequence of events. *)
Fixpoint last_operation_on (address : string) (events : list Event.t)
    : option operation :=
  match events with
  | [] => None
  | event :: later =>
      match last_operation_on address later with
      | Some op => Some op
      | None => operation_on address event
      end
  end.

(** What the index holds at [address] after the sequence, given what it
    held [before]: the record of the last upsert there, nothing if a remove
    came after it, and what it held before if no operation was applied
    there. *)
Definition replayed (address : string) (events : list Event.t)
    (before : option Metadata.t) : option Metadata.t :=
  match last_operation_on address events with
  | Some (upsert record) => Some record
  | Some remove => None
  | None => before
  end.

(** ** Sample objects *)

Definition running_at (name ip : string) : V1Pod.t :=
  {| V1Pod.metadata :=
       Some {| V1ObjectMeta.name := Some name;
               V1ObjectMeta.namespace := Some "default";
               V1ObjectMeta.uid := None;
               V1ObjectMeta.labels := None;
               V1ObjectMeta.annotations := None |};
     V1Pod.spec :=
       Some {| V1PodSpec.node_name := Some "node-1";
               V1PodSpec.containers := None |};
     V1Pod.status :=
       Some {| V1PodStatus.phase := Some "Running";
               V1PodStatus.pod_ip := Some ip;
               V1PodStatus.host_ip := None;
               V1PodStatus.start_time := None;
               V1PodStatus.conditions := None |} |}.

(** A pod that has an address and no [metadata]. *)
Definition without_metadata (ip : string) : V1Pod.t :=
  {| V1Pod.metadata := None;
     V1Pod.spec := V1Pod.spec (running_at "" ip);
     V1Pod.status := V1Pod.status (running_at "" ip) |}.

(** A pod that is not scheduled yet: its status has no address. *)
Definition pending (name : string) : V1Pod.t :=
  {| V1Pod.metadata := V1Pod.metadata (running_at name "");
     V1Pod.spec := V1Pod.spec (running_at name "");
     V1Pod.status :=
       Some {| V1PodStatus.phase := Some "Pending";
               V1PodStatus.pod_ip := None;
               V1PodStatus.host_ip := None;
               V1PodStatus.start_time := None;
               V1PodStatus.conditions := None |} |}.

Definition record_at (name ip : string) : Metadata.t :=
  {| Metadata.name := Some name;
     Metadata.namespace := Some "default";
     Metadata.uid := None;
     Metadata.labels := ∅;
     Metadata.annotations := ∅;
     Metadata.node_name := Some "node-1";
     Metadata.phase := Some "Running";
     Metadata.pod_ip := Some ip;
     Metadata.host_ip := None;
     Metadata.start_time := None;
     Metadata.conditions := [];
     Metadata.containers := [] |}.

(** A pod that has its three parts and nothing optional in them, with one
    container that declares no ports. *)
Definition bare : V1Pod.t :=
  {| V1Pod.metadata :=
       Some {| V1ObjectMeta.name := Some "bare";
               V1ObjectMeta.namespace := Some "default";
               V1ObjectMeta.uid := None;
               V1ObjectMeta.labels := None;
               V1ObjectMeta.annotations := None |};
     V1Pod.spec :=
       Some {| V1PodSpec.node_name := None;
               V1PodSpec.containers :=
                 Some [ {| V1Container.name := Some "main";
                           V1Container.image := Some "busybox";
                           V1Container.ports := None |} ] |};
     V1Pod.status :=
       Some {| V1PodStatus.phase := None;
               V1PodStatus.pod_ip := None;
               V1PodStatus.host_ip := None;
               V1PodStatus.start_time := None;
               V1PodStatus.conditions := None |} |}.

(** ** Properties of traces *)

(** [always T p]: whatever the dictionary, the trace of [p] is in [T]. *)
Definition always {A} (T : list action -> Prop) (p : Prog A) : Prop :=
  forall m, T (trace (p m)).

(** The locking discipline, read along a trace.  [lock_after held t] is
    whether the lock is held after [t], starting with the lock [held]; it
    is [None] when [t] breaks the discipline:
    - the lock is taken only when free, and released only when held;
    - the dictionary is written ([SetItem], [DelItem]) and its records are
      looked up ([Contains], [GetItem], [Items]) only with the lock held;
    - the thread waits for the network ([ListPods], [OpenStream],
      [NextEvent]) or sleeps only with the lock free.
    Reading the size of the dictionary and logging are not constrained. *)
Fixpoint lock_after (held : bool) (t : list action) : option bool :=
  match t with
  | [] => Some held
  | a :: t' =>
      match a with
      | Acquire => if held then None else lock_after true t'
      | Release => if held then lock_after false t' else None
      | SetItem _ | DelItem _ | Contains _ | GetItem _ | Items =>
          if held then lock_after held t' else None
      | ListPods | OpenStream | NextEvent | Sleep _ =>
          if held then None else lock_after held t'
      | Len | Log _ => lock_after held t'
      end
  end.

(** One write for each time the lock is held.  [writes_after n t] is the
    number of writes since the lock was last taken, starting from [n]; it
    is [None] when [t] writes twice without taking the lock again in
    between. *)
Fixpoint writes_after (n : nat) (t : list action) : option nat :=
  match t with
  | [] => Some n
  | a :: t' =>
      match a with
      | Acquire => writes_after 0 t'
      | SetItem _ | DelItem _ =>
          match n with
          | O => writes_after 1 t'
          | S _ => None
          end
      | _ => writes_after n t'
      end
  end.

(** ** Pods and events that the loops get through

    [indexable pod]: the body of the listing loop does not raise on [pod].
    It reads [pod.status.pod_ip], and calls the extractor only when there is
    an address. *)
Definition indexable (pod : V1Pod.t) : bool :=
  match V1Pod.status pod with
  | Some status =>
      match V1PodStatus.pod_ip status with
      | Some ip => if truthy ip then well_formed pod else true
      | None => true
      end
  | None => false
  end.

(** [handled event]: the body of the stream loop does not raise on [event].
    It reads [pod.status.pod_ip] and [pod.metadata.name] for every event,
    and calls the extractor for a created or updated pod with an address. *)
Definition handled (event : Event.t) : bool :=
  match V1Pod.status (Event.object event), V1Pod.metadata (Event.object event) with
  | Some status, Some _ =>
      if String.eqb (Event.type event) "ADDED"
         || String.eqb (Event.type event) "MODIFIED" then
        match V1PodStatus.pod_ip status with
        | Some ip => if truthy ip then well_formed (Event.object event) else true
        | None => true
        end
      else true
  | _, _ => false
  end.

(** The address of a pod, when its status has one. *)
Definition address_of (pod : V1Pod.t) : option string :=
  V1Pod.status pod ≫= V1PodStatus.pod_ip.

(** The pods that a run of the watcher is given: those of the listing and
    those of the events of the stream. *)
Definition pods_given (listing : outcome (list V1Pod.t))
    (sessions : list Session.t) : list V1Pod.t :=
  match listing with
  | Returns pods => pods
  | Raises _ => []
  end ++ map Event.object (concat (map Session.events sessions)).

(** The number of actions of a trace that [f] selects. *)
Fixpoint count (f : action -> bool) (t : list action) : nat :=
  match t with
  | [] => O
  | a :: t' => if f a then S (count f t') else count f t'
  end.

Definition is_list_pods (a : action) : bool :=
  match a with ListPods => true | _ => false end.

Definition is_open_stream (a : action) : bool :=
  match a with OpenStream => true | _ => false end.

Definition is_sleep (a : action) : bool :=
  match a with Sleep _ => true | _ => false end.

(** Two more sample objects: a deployment's pod in another namespace, and a
    pod whose status is missing. *)
Definition in_namespace (ns : string) (record : Metadata.t) : Metadata.t :=
  {| Metadata.name := Metadata.name record;
     Metadata.namespace := Some ns;
     Metadata.uid := Metadata.uid record;
     Metadata.labels := Metadata.labels record;
     Metadata.annotations := Metadata.annotations record;
     Metadata.node_name := Metadata.node_name record;
     Metadata.phase := Metadata.phase record;
     Metadata.pod_ip := Metadata.pod_ip record;
     Metadata.host_ip := Metadata.host_ip record;
     Metadata.start_time := Metadata.start_time record;
     Metadata.conditions := Metadata.conditions record;
     Metadata.containers := Metadata.containers record |}.

Definition without_status (name : string) : V1Pod.t :=
  {| V1Pod.metadata := V1Pod.metadata (running_at name "");
     V1Pod.spec := V1Pod.spec (running_at name "");
     V1Pod.status := None |}.

(** A session that ended by raising. *)
Definition raised (s : Session.t) : bool :=
  match Session.ending s with Some _ => true | None => false end.

(** A pod with everything in it. *)
Definition full : V1Pod.t :=
  {| V1Pod.metadata :=
       Some {| V1ObjectMeta.name := Some "full";
               V1ObjectMeta.namespace := Some "prod";
               V1ObjectMeta.uid := Some "uid-1";
               V1ObjectMeta.labels := Some {["app" := "web"]};
               V1ObjectMeta.annotations := Some ∅ |};
     V1Pod.spec :=
       Some {| V1PodSpec.node_name := Some "node-1";
               V1PodSpec.containers :=
                 Some [ {| V1Container.name := Some "main";
                           V1Container.image := Some "nginx";
                           V1Container.ports :=
                             Some [ {| V1ContainerPort.container_port := 80;
                                       V1ContainerPort.protocol := Some "TCP" |};
                                    {| V1ContainerPort.container_port := 443;
                                       V1ContainerPort.protocol := None |} ] |};
                        {| V1Container.name := Some "sidecar";
                           V1Container.image := None;
                           V1Container.ports := None |} ] |};
     V1Pod.status :=
       Some {| V1PodStatus.phase := Some "Running";
               V1PodStatus.pod_ip := Some "10.0.0.7";
               V1PodStatus.host_ip := Some "192.168.0.1";
               V1PodStatus.start_time :=
                 Some {| datetime.isoformat := "2024-01-01T00:00:00+00:00" |};
               V1PodStatus.conditions :=
                 Some [ {| V1PodCondition.type := Some "Ready";
                           V1PodCondition.status := Some "True";
                           V1PodCondition.reason := None;
                           V1PodCondition.message := None |} ] |} |}.
(** * Properties *)

(** ** Running the combinators *)

Section Combinators.
Context {A B : Type}.

Lemma bind_returns (p : Prog A) (k : A -> Prog B) m a :
  result (p m) = Returns a ->
  bind p k m =
    Run (result (k a (final (p m)))) (final (k a (final (p m))))
        (trace (p m) ++ trace (k a (final (p m)))).
Proof. intros H. unfold bind. now rewrite H. Qed.

Lemma bind_raises (p : Prog A) (k : A -> Prog B) m e :
  result (p m) = Raises e ->
  bind p k m = Run (Raises e) (final (p m)) (trace (p m)).
Proof. intros H. unfold bind. now rewrite H. Qed.

Lemma final_bind (p : Prog A) (k : A -> Prog B) m :
  final (bind p k m) =
    match result (p m) with
    | Returns a => final (k a (final (p m)))
    | Raises _ => final (p m)
    end.
Proof. unfold bind. now destruct (result (p m)). Qed.

Lemma trace_bind (p : Prog A) (k : A -> Prog B) m :
  trace (bind p k m) =
    match result (p m) with
    | Returns a => trace (p m) ++ trace (k a (final (p m)))
    | Raises _ => trace (p m)
    end.
Proof. unfold bind. now destruct (result (p m)). Qed.

Lemma result_bind (p : Prog A) (k : A -> Prog B) m :
  result (bind p k m) =
    match result (p m) with
    | Returns a => result (k a (final (p m)))
    | Raises e => Raises e
    end.
Proof. unfold bind. now destruct (result (p m)). Qed.
End Combinators.

Lemma run_ext {A} (r r' : run A) :
  result r = result r' -> final r = final r' -> trace r = trace r' -> r = r'.
Proof. destruct r, r'; simpl; now intros -> -> ->. Qed.

Lemma final_try_except {A} (p : Prog A) handler m :
  final (try_except p handler m) =
    match result (p m) with
    | Returns _ => final (p m)
    | Raises e => final (handler e (final (p m)))
    end.
Proof. unfold try_except. now destruct (result (p m)). Qed.

Lemma trace_try_except {A} (p : Prog A) handler m :
  trace (try_except p handler m) =
    match result (p m) with
    | Returns _ => trace (p m)
    | Raises e => trace (p m) ++ trace (handler e (final (p m)))
    end.
Proof. unfold try_except. now destruct (result (p m)). Qed.

Lemma result_try_except {A} (p : Prog A) handler m :
  result (try_except p handler m) =
    match result (p m) with
    | Returns a => Returns a
    | Raises e => result (handler e (final (p m)))
    end.
Proof. unfold try_except. now destruct (result (p m)) eqn:H. Qed.

(** A loop over [xs ++ ys] is the loop over [xs] followed, if it did not
    raise, by the loop over [ys]. *)
Lemma for_each_app {X} (xs ys : list X) body :
  forall m, for_each (xs ++ ys) body m = (for_each xs body ;; for_each ys body) m.
Proof.
  induction xs as [|x xs IH]; intros m; simpl.
  - unfold bind, ret; simpl. now destruct (for_each ys body m).
  - apply run_ext;
      repeat rewrite ?result_bind, ?final_bind, ?trace_bind, ?IH;
      destruct (result (body x m)); simpl; try reflexivity;
      destruct (result (for_each xs body (final (body x m)))); simpl;
      now rewrite ?app_assoc.
Qed.

(** The body that raises ends the loop: what follows it is not run. *)
Lemma for_each_raises {X} (x : X) (xs : list X) body m e :
  result (body x m) = Raises e ->
  for_each (x :: xs) body m = Run (Raises e) (final (body x m)) (trace (body x m)).
Proof. intros H. simpl. now apply bind_raises. Qed.

Section Preserves.
Variable I : gmap string Metadata.t -> Prop.

Lemma preserves_ret {A} (a : A) : preserves I (ret a).
Proof. now intros m. Qed.

Lemma preserves_raise {A} e : preserves I (@raise A e).
Proof. now intros m. Qed.

Lemma preserves_eval {A} (o : outcome A) : preserves I (eval o).
Proof. now intros m. Qed.

Lemma preserves_emit a : preserves I (emit a).
Proof. now intros m. Qed.

Lemma preserves_len : preserves I len.
Proof. now intros m. Qed.

Lemma preserves_contains ip : preserves I (contains ip).
Proof. now intros m. Qed.

Lemma preserves_bind {A B} (p : Prog A) (k : A -> Prog B) :
  preserves I p -> (forall a, preserves I (k a)) -> preserves I (bind p k).
Proof.
  intros Hp Hk m Hm. rewrite final_bind.
  destruct (result (p m)); [apply Hk|]; now apply Hp.
Qed.

Lemma preserves_try_except {A} (p : Prog A) handler :
  preserves I p -> (forall e, preserves I (handler e)) ->
  preserves I (try_except p handler).
Proof.
  intros Hp Hh m Hm. rewrite final_try_except.
  destruct (result (p m)); [|apply Hh]; now apply Hp.
Qed.

Lemma preserves_with_pod_map_lock {A} (p : Prog A) :
  preserves I p -> preserves I (with_pod_map_lock p).
Proof. intros Hp m Hm. now apply Hp. Qed.

Lemma preserves_for_each {X} (xs : list X) body :
  (forall x, preserves I (body x)) -> preserves I (for_each xs body).
Proof.
  intros Hbody. induction xs as [|x xs IH]; simpl.
  - apply preserves_ret.
  - apply preserves_bind; auto.
Qed.

Lemma preserves_if_truthy pod_ip body :
  (forall ip, pod_ip = Some ip -> truthy ip = true -> preserves I (body ip)) ->
  preserves I (if_truthy pod_ip body).
Proof.
  intros Hbody. unfold if_truthy. destruct pod_ip as [ip|]; [|apply preserves_ret].
  destruct (truthy ip) eqn:Hip; [auto | apply preserves_ret].
Qed.
End Preserves.

(** ** The extractor *)

Lemma extract_pod_metadata_returns pod :
  well_formed pod = true -> exists record, extract_pod_metadata pod = Returns record.
Proof.
  unfold well_formed, extract_pod_metadata.
  destruct (V1Pod.metadata pod), (V1Pod.spec pod), (V1Pod.status pod);
    try discriminate; simpl; eauto.
Qed.

Lemma extract_pod_metadata_well_formed pod record :
  extract_pod_metadata pod = Returns record -> well_formed pod = true.
Proof.
  unfold well_formed, extract_pod_metadata.
  now destruct (V1Pod.metadata pod), (V1Pod.spec pod), (V1Pod.status pod).
Qed.

(** The record carries the address that the pod's status has. *)
Lemma extract_pod_metadata_pod_ip pod record :
  extract_pod_metadata pod = Returns record ->
  getattr (V1Pod.status pod) "pod_ip" V1PodStatus.pod_ip
    = Returns (Metadata.pod_ip record).
Proof.
  unfold extract_pod_metadata.
  destruct (V1Pod.metadata pod), (V1Pod.spec pod), (V1Pod.status pod);
    try discriminate; simpl.
  now intros [= <-].
Qed.

(** ** Key and field agree *)

Lemma key_agrees_empty : key_agrees ∅.
Proof. intros address record H. now rewrite lookup_empty in H. Qed.

Lemma key_agrees_setitem ip record :
  Metadata.pod_ip record = Some ip -> preserves key_agrees (setitem ip record).
Proof.
  intros Hip m Hm address record'. simpl.
  destruct (decide (ip = address)) as [->|Hne].
  - rewrite lookup_insert_eq. now intros [= <-].
  - rewrite lookup_insert_ne by done. apply Hm.
Qed.

Lemma key_agrees_delitem ip : preserves key_agrees (delitem ip).
Proof.
  intros m Hm. unfold delitem. destruct (m !! ip); simpl; [|done].
  intros address record H. apply lookup_delete_Some in H as [_ H]. now apply Hm.
Qed.

(** Storing what the extractor returns under the status' address keeps the
    agreement: the two come from the same attribute of the same pod. *)
Lemma key_agrees_store pod pod_ip (after : Prog unit) :
  getattr (V1Pod.status pod) "pod_ip" V1PodStatus.pod_ip = Returns pod_ip ->
  preserves key_agrees after ->
  preserves key_agrees
    (if_truthy pod_ip (fun ip =>
       record <- eval (extract_pod_metadata pod) ;; setitem ip record ;; after)).
Proof.
  intros Hget Hafter. apply preserves_if_truthy. intros ip -> _.
  intros m Hm. rewrite final_bind. simpl.
  destruct (extract_pod_metadata pod) as [record|] eqn:Hrecord; [|done].
  apply extract_pod_metadata_pod_ip in Hrecord.
  rewrite Hget in Hrecord. injection Hrecord as Hrecord.
  apply (preserves_bind key_agrees (setitem ip record) (fun _ => after)); auto.
  now apply key_agrees_setitem.
Qed.

Lemma key_agrees_index_listed_pod pod : preserves key_agrees (index_listed_pod pod).
Proof.
  intros m Hm. unfold index_listed_pod. rewrite final_bind. simpl.
  destruct (getattr (V1Pod.status pod) "pod_ip" V1PodStatus.pod_ip)
    as [pod_ip|] eqn:Hget; [|done].
  pose proof (key_agrees_store pod pod_ip (ret tt) Hget (preserves_ret _ tt)) as H.
  specialize (H m Hm). revert H. unfold if_truthy.
  destruct pod_ip as [ip|]; [|done]. destruct (truthy ip); [|done].
  rewrite !final_bind. simpl.
  destruct (extract_pod_metadata pod); simpl; done.
Qed.

Lemma key_agrees_apply_event event_type pod_ip pod :
  getattr (V1Pod.status pod) "pod_ip" V1PodStatus.pod_ip = Returns pod_ip ->
  preserves key_agrees (apply_event event_type pod_ip pod).
Proof.
  intros Hget. unfold apply_event.
  destruct (_ || _).
  - apply key_agrees_store; [done | apply preserves_emit].
  - destruct (String.eqb event_type "DELETED"); [|apply preserves_ret].
    apply preserves_if_truthy. intros ip _ _.
    apply preserves_bind; [apply preserves_contains|].
    intros [|]; [|apply preserves_ret].
    apply preserves_bind; [apply key_agrees_delitem | intros; apply preserves_emit].
Qed.

Lemma key_agrees_handle_event event : preserves key_agrees (handle_event event).
Proof.
  intros m Hm. unfold handle_event. rewrite final_bind. simpl.
  destruct (getattr (V1Pod.status _) "pod_ip" V1PodStatus.pod_ip)
    as [pod_ip|] eqn:Hget; [|done].
  revert m Hm.
  apply preserves_bind; [apply preserves_eval|]. intros _.
  apply preserves_bind; [apply preserves_emit|]. intros _.
  apply preserves_with_pod_map_lock. now apply key_agrees_apply_event.
Qed.

Lemma key_agrees_watch_stream sessions : preserves key_agrees (watch_stream sessions).
Proof.
  induction sessions as [|s rest IH]; simpl; [apply preserves_ret|].
  apply preserves_bind; [|done].
  apply preserves_try_except.
  - unfold consume_stream.
    apply preserves_bind; [apply preserves_emit|]. intros _.
    apply preserves_bind.
    + apply preserves_for_each. intros event.
      apply preserves_bind; [apply preserves_emit|]. intros _.
      apply key_agrees_handle_event.
    + intros _. apply preserves_bind; [apply preserves_emit|]. intros _.
      destruct (Session.ending s); [apply preserves_raise | apply preserves_ret].
  - intros e. unfold restart_after.
    repeat (apply preserves_bind; [apply preserves_emit|]; intros _).
    apply preserves_emit.
Qed.

Lemma key_agrees_initial_listing listing : preserves key_agrees (initial_listing listing).
Proof.
  apply preserves_try_except; [|intros; apply preserves_emit].
  apply preserves_bind; [apply preserves_emit|]. intros _.
  apply preserves_bind; [apply preserves_eval|]. intros pod_list.
  apply preserves_bind.
  - apply preserves_with_pod_map_lock, preserves_for_each.
    apply key_agrees_index_listed_pod.
  - intros _. apply preserves_bind; [apply preserves_len | intros; apply preserves_emit].
Qed.

(** C10. Key and field agree: if every record of the index has, as its
    [pod_ip] field, the address it is stored under, the same holds after
    indexing a listed pod, after handling a stream event, and after a whole
    run of [watch_pods], whatever the server lists and streams.  So every
    entry the watcher ever inserts into the (initially empty) index has a
    [pod_ip] field equal to its key. *)
Theorem key_agrees_preserved
    (m : gmap string Metadata.t) (pod : V1Pod.t) (event : Event.t)
    (listing : outcome (list V1Pod.t)) (sessions : list Session.t) :
  key_agrees m ->
  key_agrees (final (index_listed_pod pod m)) /\
  key_agrees (final (handle_event event m)) /\
  key_agrees (final (watch_pods listing sessions m)).
Proof.
  intros Hm. split; [|split].
  - now apply key_agrees_index_listed_pod.
  - now apply key_agrees_handle_event.
  - revert m Hm. unfold watch_pods.
    apply preserves_bind; [apply preserves_emit|]. intros _.
    apply preserves_bind; [apply key_agrees_initial_listing|]. intros _.
    apply key_agrees_watch_stream.
Qed.

Lemma key_agrees_preserved_witness :
  key_agrees
    (final (watch_pods
              (Returns [running_at "db" "10.0.0.2"; pending "job"])
              [Session.mk [Event.mk "ADDED" (running_at "web" "10.0.0.1")] None]
              ∅)).
Proof.
  refine (proj2 (proj2 (key_agrees_preserved ∅ (pending "job")
                          (Event.mk "ADDED" (pending "job")) _ _ _))).
  intros address record H. rewrite lookup_empty in H. discriminate H.
Defined.

(** ** Replaying events *)

Lemma truthy_nonempty ip : truthy ip = true <-> ip <> "".
Proof.
  unfold truthy. destruct (String.eqb_spec ip ""); simpl; split; congruence.
Qed.

(** One well-formed event: it is handled without raising, and it leaves at
    every address what its operation at that address says. *)
Lemma handle_event_replayed event m :
  well_formed (Event.object event) = true ->
  result (handle_event event m) = Returns tt /\
  forall address,
    final (handle_event event m) !! address = replayed address [event] (m !! address).
Proof.
  destruct event as [event_type [[meta|] [spec|] [[phase pod_ip host_ip start_time conditions]|]]];
    try discriminate.
  intros _. unfold handle_event, replayed, apply_event; simpl.
  unfold operation_on; simpl.
  destruct (String.eqb event_type "ADDED" || String.eqb event_type "MODIFIED").
  - destruct pod_ip as [ip|]; simpl; [|done].
    destruct (truthy ip); simpl; [|done].
    split; [done|]. intros address.
    destruct (String.eqb_spec ip address) as [->|Hne].
    + now rewrite lookup_insert_eq.
    + now rewrite lookup_insert_ne.
  - destruct (String.eqb event_type "DELETED"); simpl.
    + destruct pod_ip as [ip|]; simpl; [|done].
      destruct (truthy ip); simpl; [|done].
      unfold bind, contains, delitem; simpl.
      destruct (m !! ip) as [record|] eqn:Hip; simpl.
      * rewrite Hip. simpl.
        split; [done|]. intros address.
        destruct (String.eqb_spec ip address) as [->|Hne].
        -- now rewrite lookup_delete_eq.
        -- now rewrite lookup_delete_ne.
      * split; [done|]. intros address.
        destruct (String.eqb_spec ip address) as [->|Hne]; done.
    + split; [done|]. intros address.
      destruct pod_ip as [ip|]; [|done].
      now destruct (truthy ip && String.eqb ip address).
Qed.

Lemma replayed_cons address event later before :
  replayed address (event :: later) before
    = replayed address later (replayed address [event] before).
Proof.
  unfold replayed; simpl.
  destruct (last_operation_on address later) as [[record|]|]; try done.
Qed.

Lemma replayed_app address events later before :
  replayed address (events ++ later) before
    = replayed address later (replayed address events before).
Proof.
  revert before. induction events as [|event events IH]; intros before; simpl.
  - unfold replayed at 2. done.
  - rewrite replayed_cons, IH. now rewrite <- replayed_cons.
Qed.

(** The events of one session, all well-formed: the loop over them returns
    and leaves the replayed index. *)
Lemma for_each_handle_event_replayed events m :
  Forall (fun event => well_formed (Event.object event) = true) events ->
  let r := for_each events (fun event => emit NextEvent ;; handle_event event) m in
  result r = Returns tt /\
  forall address, final r !! address = replayed address events (m !! address).
Proof.
  intros Hwf. revert m.
  induction Hwf as [|event events Hevent _ IH]; intros m; simpl.
  - now split.
  - destruct (handle_event_replayed event m Hevent) as [Hres Hlook].
    specialize (IH (final (handle_event event m))) as [IHres IHlook].
    rewrite result_bind, final_bind, result_bind, final_bind. simpl.
    rewrite Hres. split; [done|]. intros address.
    now rewrite IHlook, Hlook, <- replayed_cons.
Qed.

Lemma consume_stream_replayed s m :
  Forall (fun event => well_formed (Event.object event) = true) (Session.events s) ->
  forall address,
    final (consume_stream s m) !! address
      = replayed address (Session.events s) (m !! address).
Proof.
  intros Hwf address. unfold consume_stream.
  destruct (for_each_handle_event_replayed (Session.events s) m Hwf) as [Hres Hlook].
  rewrite final_bind; simpl. rewrite final_bind, Hres, final_bind; simpl.
  rewrite <- Hlook. now destruct (Session.ending s).
Qed.

Lemma final_restart_after e m : final (restart_after e m) = m.
Proof. reflexivity. Qed.

Lemma result_restart_after e m : result (restart_after e m) = Returns tt.
Proof. reflexivity. Qed.

(** No exception leaves the stream loop. *)
Lemma watch_stream_returns sessions m :
  result (watch_stream sessions m) = Returns tt.
Proof.
  revert m. induction sessions as [|s rest IH]; intros m; simpl; [done|].
  rewrite result_bind, result_try_except.
  destruct (result (consume_stream s m)) as [[]|e]; simpl; now rewrite ?IH.
Qed.

(** The dictionary after one turn of the stream loop is the one the
    session left, whether it ended or raised. *)
Lemma final_try_consume_stream s m :
  final (try_except (consume_stream s) restart_after m) = final (consume_stream s m).
Proof. rewrite final_try_except. now destruct (result (consume_stream s m)). Qed.

Lemma final_watch_stream_cons s rest m :
  final (watch_stream (s :: rest) m)
    = final (watch_stream rest (final (consume_stream s m))).
Proof.
  simpl. rewrite final_bind, result_try_except, final_try_consume_stream.
  now destruct (result (consume_stream s m)).
Qed.

(** C1. Last operation wins: for every sequence of sessions of the watch
    stream whose events carry well-formed pods, and every initial index,
    the stream loop returns normally and the index it leaves holds, at each
    address, exactly the record of the last upsert applied to that address,
    nothing if a remove was applied to the address after that upsert, and
    what it held initially if no operation was applied to the address;
    how many upserts came earlier does not matter. *)
Theorem last_operation_wins (sessions : list Session.t) (m : gmap string Metadata.t) :
  Forall (fun s =>
    Forall (fun event => well_formed (Event.object event) = true) (Session.events s))
    sessions ->
  result (watch_stream sessions m) = Returns tt /\
  forall address,
    final (watch_stream sessions m) !! address
      = match last_operation_on address (concat (map Session.events sessions)) with
        | Some (upsert record) => Some record
        | Some remove => None
        | None => m !! address
        end.
Proof.
  intros Hwf. split; [apply watch_stream_returns|].
  intros address. change (final (watch_stream sessions m) !! address
    = replayed address (concat (map Session.events sessions)) (m !! address)).
  revert m. induction Hwf as [|s rest Hs _ IH]; intros m.
  - reflexivity.
  - rewrite final_watch_stream_cons, IH, consume_stream_replayed by done.
    simpl. now rewrite replayed_app.
Qed.

Lemma last_operation_wins_witness :
  final (watch_stream
           [Session.mk [Event.mk "ADDED" (running_at "web-1" "10.0.0.1");
                        Event.mk "ADDED" (running_at "db" "10.0.0.2");
                        Event.mk "MODIFIED" (running_at "web-2" "10.0.0.1")]
                       (Some (ApiError "connection reset"));
            Session.mk [Event.mk "DELETED" (running_at "db" "10.0.0.2")] None]
           ∅) !! "10.0.0.1"
    = Some (record_at "web-2" "10.0.0.1") /\
  final (watch_stream
           [Session.mk [Event.mk "ADDED" (running_at "web-1" "10.0.0.1");
                        Event.mk "ADDED" (running_at "db" "10.0.0.2");
                        Event.mk "MODIFIED" (running_at "web-2" "10.0.0.1")]
                       (Some (ApiError "connection reset"));
            Session.mk [Event.mk "DELETED" (running_at "db" "10.0.0.2")] None]
           ∅) !! "10.0.0.2"
    = None.
Proof.
  split.
  - refine (proj2 (last_operation_wins _ ∅ _) "10.0.0.1"). repeat constructor.
  - refine (proj2 (last_operation_wins _ ∅ _) "10.0.0.2"). repeat constructor.
Defined.

(** ** The initial listing *)

(** A well-formed listed pod is indexed like a created event for it. *)
Lemma index_listed_pod_replayed pod m :
  well_formed pod = true ->
  result (index_listed_pod pod m) = Returns tt /\
  forall address,
    final (index_listed_pod pod m) !! address
      = replayed address [Event.mk "ADDED" pod] (m !! address).
Proof.
  destruct pod as [[meta|] [spec|] [[phase pod_ip host_ip start_time conditions]|]];
    try discriminate.
  intros _. unfold index_listed_pod, replayed; simpl. unfold operation_on; simpl.
  destruct pod_ip as [ip|]; simpl; [|done].
  destruct (truthy ip); simpl; [|done].
  split; [done|]. intros address.
  destruct (String.eqb_spec ip address) as [->|Hne].
  - now rewrite lookup_insert_eq.
  - now rewrite lookup_insert_ne.
Qed.

Lemma for_each_index_listed_pod_replayed pods m :
  Forall (fun pod => well_formed pod = true) pods ->
  result (for_each pods index_listed_pod m) = Returns tt /\
  forall address,
    final (for_each pods index_listed_pod m) !! address
      = replayed address (map (Event.mk "ADDED") pods) (m !! address).
Proof.
  intros Hwf. revert m.
  induction Hwf as [|pod pods Hpod _ IH]; intros m; simpl.
  - now split.
  - destruct (index_listed_pod_replayed pod m Hpod) as [Hres Hlook].
    specialize (IH (final (index_listed_pod pod m))) as [IHres IHlook].
    rewrite result_bind, final_bind, Hres. split; [done|]. intros address.
    now rewrite IHlook, Hlook, <- replayed_cons.
Qed.

(** A listed pod that has an address and on which the extractor raises:
    the exception leaves the loop body with the dictionary untouched. *)
Lemma index_listed_pod_raises pod status ip e m :
  V1Pod.status pod = Some status ->
  V1PodStatus.pod_ip status = Some ip ->
  truthy ip = true ->
  extract_pod_metadata pod = Raises e ->
  index_listed_pod pod m = Run (Raises e) m [].
Proof.
  intros Hstatus Hip Htruthy Hextract.
  unfold index_listed_pod, bind, eval, if_truthy; simpl.
  rewrite Hstatus; simpl. rewrite Hip, Htruthy, Hextract. reflexivity.
Qed.

(** The initial listing never lets an exception out. *)
Lemma initial_listing_returns listing m :
  result (initial_listing listing m) = Returns tt.
Proof.
  unfold initial_listing. rewrite result_try_except.
  match goal with |- match result ?r with _ => _ end = _ =>
    destruct (result r) as [[]|e] end; reflexivity.
Qed.

(** The dictionary after the initial listing is the one the loop over the
    items left. *)
Lemma final_initial_listing pods m :
  final (initial_listing (Returns pods) m) = final (for_each pods index_listed_pod m).
Proof.
  unfold initial_listing, try_except, bind, with_pod_map_lock; simpl.
  destruct (for_each pods index_listed_pod m) as [[[]|e] m' t]; reflexivity.
Qed.

(** C3 (as the code has it). A malformed pod ends the listing: when the
    extractor raises on a listed pod that has an address, the initial
    listing stops at that pod.  The exception is caught (the listing
    returns, and the watcher goes on to the stream); the pods listed before
    the malformed one, when well-formed, are indexed as by a listing that
    ended just before it; the pods listed after it are not looked at, so
    the index does not depend on them. *)
Theorem initial_listing_stops_at_malformed
    (before after : list V1Pod.t) (bad : V1Pod.t) (status : V1PodStatus.t)
    (ip : string) (e : Exception) (m : gmap string Metadata.t) :
  Forall (fun pod => well_formed pod = true) before ->
  V1Pod.status bad = Some status ->
  V1PodStatus.pod_ip status = Some ip ->
  truthy ip = true ->
  extract_pod_metadata bad = Raises e ->
  result (initial_listing (Returns (before ++ bad :: after)) m) = Returns tt /\
  final (initial_listing (Returns (before ++ bad :: after)) m)
    = final (initial_listing (Returns before) m) /\
  (forall address,
     final (initial_listing (Returns (before ++ bad :: after)) m) !! address
       = replayed address (map (Event.mk "ADDED") before) (m !! address)) /\
  trace (initial_listing (Returns (before ++ bad :: after)) m)
    = ListPods :: Acquire :: trace (for_each before index_listed_pod m)
        ++ [Release; Log ERROR].
Proof.
  intros Hbefore Hstatus Hip Htruthy Hextract.
  destruct (for_each_index_listed_pod_replayed before m Hbefore) as [Hres Hlook].
  pose proof (index_listed_pod_raises bad status ip e
    (final (for_each before index_listed_pod m)) Hstatus Hip Htruthy Hextract) as Hbad.
  assert (Hloop : for_each (before ++ bad :: after) index_listed_pod m
    = Run (Raises e) (final (for_each before index_listed_pod m))
          (trace (for_each before index_listed_pod m))).
  { rewrite for_each_app. rewrite (bind_returns _ _ _ _ Hres).
    rewrite (for_each_raises bad after index_listed_pod _ e) by now rewrite Hbad.
    rewrite Hbad. simpl. now rewrite app_nil_r. }
  split; [apply initial_listing_returns|].
  split; [|split].
  - rewrite !final_initial_listing. now rewrite Hloop.
  - intros address. rewrite final_initial_listing, Hloop. simpl. apply Hlook.
  - unfold initial_listing, try_except, bind, with_pod_map_lock; simpl.
    rewrite Hloop. simpl. now rewrite <- app_assoc.
Qed.

(** C3, the claim as stated fails: a listing of a pod without [metadata]
    followed by a well-formed pod at 10.0.0.2.  The extractor raises on the
    first; the second is well-formed and has an address, yet the index has
    no entry for it after the listing. *)
Lemma initial_listing_skips_well_formed_pod :
  extract_pod_metadata (without_metadata "10.0.0.1") = Raises (AttributeError "name") /\
  extract_pod_metadata (running_at "web" "10.0.0.2")
    = Returns (record_at "web" "10.0.0.2") /\
  final (initial_listing
           (Returns [without_metadata "10.0.0.1"; running_at "web" "10.0.0.2"]) ∅)
    !! "10.0.0.2" = None.
Proof. repeat split. Qed.

Lemma initial_listing_stops_at_malformed_witness :
  final (initial_listing
           (Returns [running_at "db" "10.0.0.3"; without_metadata "10.0.0.1";
                     running_at "web" "10.0.0.2"]) ∅)
    = final (initial_listing (Returns [running_at "db" "10.0.0.3"]) ∅).
Proof.
  apply (initial_listing_stops_at_malformed
           [running_at "db" "10.0.0.3"] [running_at "web" "10.0.0.2"]
           (without_metadata "10.0.0.1")
           {| V1PodStatus.phase := Some "Running";
              V1PodStatus.pod_ip := Some "10.0.0.1";
              V1PodStatus.host_ip := None;
              V1PodStatus.start_time := None;
              V1PodStatus.conditions := None |}
           "10.0.0.1" (AttributeError "name") ∅).
  - repeat constructor.
  - reflexivity.
  - reflexivity.
  - reflexivity.
  - reflexivity.
Defined.

(** ** Pods without an address *)

(** C4. No entry without an address: a pod whose status has no address
    ([None], or the empty string, or no status at all) changes nothing in
    the index, neither when the initial listing reaches it nor when an
    event of any kind delivers it. *)
Theorem no_entry_without_address
    (pod : V1Pod.t) (event_type : string) (m : gmap string Metadata.t) :
  (forall status ip,
     V1Pod.status pod = Some status ->
     V1PodStatus.pod_ip status = Some ip -> truthy ip = false) ->
  final (index_listed_pod pod m) = m /\
  final (handle_event (Event.mk event_type pod) m) = m.
Proof.
  intros Hundefined.
  destruct pod as [meta spec [[phase pod_ip host_ip start_time conditions]|]];
    [|split; reflexivity].
  assert (Hip : forall ip, pod_ip = Some ip -> truthy ip = false).
  { intros ip ->. now apply (Hundefined _ ip eq_refl). }
  clear Hundefined. split.
  - unfold index_listed_pod, bind, if_truthy; simpl.
    destruct pod_ip as [ip|]; [|reflexivity]. now rewrite (Hip ip).
  - unfold handle_event, apply_event, bind, with_pod_map_lock, if_truthy; simpl.
    destruct meta; simpl; [|reflexivity].
    destruct pod_ip as [ip|]; [rewrite (Hip ip eq_refl)|];
      destruct (_ || _); try reflexivity;
      destruct (String.eqb event_type "DELETED"); reflexivity.
Qed.

Lemma no_entry_without_address_witness :
  final (index_listed_pod (pending "job") {["10.0.0.1" := record_at "web" "10.0.0.1"]})
    = {["10.0.0.1" := record_at "web" "10.0.0.1"]} /\
  final (handle_event (Event.mk "ADDED" (pending "job"))
           {["10.0.0.1" := record_at "web" "10.0.0.1"]})
    = {["10.0.0.1" := record_at "web" "10.0.0.1"]}.
Proof.
  apply (no_entry_without_address (pending "job") "ADDED").
  intros status ip [= <-]. discriminate.
Defined.

(** ** Removing *)

(** C5. Removing what is not there: a deleted event whose address is not a
    key of the index (the address may also be missing from the pod
    altogether) runs the locked block of the stream loop without an
    exception and leaves the index as it was; so does the whole handling of
    the event, for a pod that has its metadata and status. *)
Theorem remove_absent_is_noop
    (meta : V1ObjectMeta.t) (spec : option V1PodSpec.t) (status : V1PodStatus.t)
    (pod : V1Pod.t) (m : gmap string Metadata.t) :
  (forall ip, V1PodStatus.pod_ip status = Some ip -> m !! ip = None) ->
  apply_event "DELETED" (V1PodStatus.pod_ip status) pod m
    = Run (Returns tt) m
        match V1PodStatus.pod_ip status with
        | Some ip => if truthy ip then [Contains ip] else []
        | None => []
        end /\
  result (handle_event (Event.mk "DELETED" (V1Pod.mk (Some meta) spec (Some status))) m)
    = Returns tt /\
  final (handle_event (Event.mk "DELETED" (V1Pod.mk (Some meta) spec (Some status))) m)
    = m.
Proof.
  intros Habsent.
  assert (Happly : apply_event "DELETED" (V1PodStatus.pod_ip status) pod m
    = Run (Returns tt) m
        match V1PodStatus.pod_ip status with
        | Some ip => if truthy ip then [Contains ip] else []
        | None => []
        end).
  { unfold apply_event, if_truthy; simpl.
    destruct (V1PodStatus.pod_ip status) as [ip|]; [|reflexivity].
    destruct (truthy ip); [|reflexivity].
    unfold bind, contains; simpl. now rewrite (Habsent ip eq_refl). }
  split; [exact Happly|].
  unfold handle_event, bind, with_pod_map_lock; simpl.
  assert (Hany : apply_event "DELETED" (V1PodStatus.pod_ip status)
              (V1Pod.mk (Some meta) spec (Some status)) m
            = apply_event "DELETED" (V1PodStatus.pod_ip status) pod m) by reflexivity.
  rewrite Hany, Happly. split; reflexivity.
Qed.

Lemma remove_absent_is_noop_witness :
  result (handle_event (Event.mk "DELETED" (running_at "web" "10.0.0.2"))
            {["10.0.0.1" := record_at "db" "10.0.0.1"]}) = Returns tt /\
  final (handle_event (Event.mk "DELETED" (running_at "web" "10.0.0.2"))
           {["10.0.0.1" := record_at "db" "10.0.0.1"]})
    = {["10.0.0.1" := record_at "db" "10.0.0.1"]}.
Proof.
  refine (proj2 (remove_absent_is_noop _ _ _ (pending "job") _ _)).
  intros ip [= <-]. reflexivity.
Defined.

(** ** Reading what was written *)

Lemma get_pod_by_ip_present ip record m :
  truthy ip = true -> m !! ip = Some record ->
  get_pod_by_ip (Some ip) m
    = Run (Returns (PodBody record, 200)) m [Acquire; Contains ip; GetItem ip; Release].
Proof.
  intros Htruthy Hip.
  unfold get_pod_by_ip, with_pod_map_lock, bind, contains, getitem; simpl.
  rewrite Htruthy; simpl. rewrite Hip; simpl. now rewrite Hip.
Qed.

Lemma get_pod_by_ip_absent ip m :
  truthy ip = true -> m !! ip = None ->
  get_pod_by_ip (Some ip) m
    = Run (Returns (ErrorBody ("No pod found with IP " +:+ ip), 404)) m
        [Acquire; Contains ip; Release].
Proof.
  intros Htruthy Hip.
  unfold get_pod_by_ip, with_pod_map_lock, bind, contains; simpl.
  rewrite Htruthy; simpl. now rewrite Hip.
Qed.

(** C6. Read after write: storing a record under an address and reading
    the address straight after gives that record, whatever the index held.
    In the program: once a created or updated event for a pod with a
    (non-empty) address has been handled, or the initial listing has
    indexed such a pod, the lookup endpoint answers 200 with the record
    extracted from that pod. *)
Theorem read_after_write
    (m : gmap string Metadata.t) (address : string) (record any : Metadata.t)
    (event_type : string) (pod : V1Pod.t) :
  event_type = "ADDED" \/ event_type = "MODIFIED" ->
  extract_pod_metadata pod = Returns record ->
  Metadata.pod_ip record = Some address ->
  truthy address = true ->
  result ((setitem address any ;; getitem address) m) = Returns any /\
  result (get_pod_by_ip (Some address) (final (handle_event (Event.mk event_type pod) m)))
    = Returns (PodBody record, 200) /\
  result (get_pod_by_ip (Some address) (final (index_listed_pod pod m)))
    = Returns (PodBody record, 200).
Proof.
  intros Htype Hextract Hip Htruthy.
  split.
  { unfold bind, setitem, getitem; simpl. now rewrite lookup_insert_eq. }
  pose proof (extract_pod_metadata_well_formed _ _ Hextract) as Hwf.
  assert (Hop : forall ty, String.eqb ty "ADDED" || String.eqb ty "MODIFIED" = true ->
            replayed address [Event.mk ty pod] (m !! address) = Some record).
  { intros ty Hty. unfold replayed; simpl. unfold operation_on; simpl.
    apply extract_pod_metadata_pod_ip in Hextract as Hget.
    destruct (V1Pod.status pod) as [status|]; [|discriminate].
    injection Hget as Hget. rewrite Hget, Hip, Htruthy, String.eqb_refl. simpl.
    now rewrite Hty, Hextract. }
  split.
  - destruct (handle_event_replayed (Event.mk event_type pod) m Hwf) as [_ Hlook].
    rewrite (get_pod_by_ip_present address record); [done..|].
    rewrite Hlook. apply Hop. now destruct Htype as [-> | ->].
  - destruct (index_listed_pod_replayed pod m Hwf) as [_ Hlook].
    rewrite (get_pod_by_ip_present address record); [done..|].
    rewrite Hlook. now apply Hop.
Qed.

Lemma read_after_write_witness :
  result (get_pod_by_ip (Some "10.0.0.1")
            (final (handle_event (Event.mk "MODIFIED" (running_at "web" "10.0.0.1"))
                      {["10.0.0.1" := record_at "old" "10.0.0.1"]})))
    = Returns (PodBody (record_at "web" "10.0.0.1"), 200).
Proof.
  refine (proj1 (proj2 (read_after_write _ "10.0.0.1" (record_at "web" "10.0.0.1")
                          (record_at "any" "10.0.0.9") "MODIFIED" _ _ _ _ _))).
  - now right.
  - reflexivity.
  - reflexivity.
  - reflexivity.
Defined.

(** ** Absent optional parts *)

(** C7. Absent optional parts: on a pod that has its metadata, spec and
    status, the extractor returns a record, whichever of the labels,
    annotations, conditions, containers, container ports and start time are
    absent; an absent collection becomes the empty collection of the record
    (a container without ports becomes a container entry with an empty port
    list), and an absent start time stays absent. *)
Theorem extract_pod_metadata_absent_parts
    (pod : V1Pod.t) (meta : V1ObjectMeta.t) (spec : V1PodSpec.t)
    (status : V1PodStatus.t) :
  V1Pod.metadata pod = Some meta ->
  V1Pod.spec pod = Some spec ->
  V1Pod.status pod = Some status ->
  exists record,
    extract_pod_metadata pod = Returns record /\
    (V1ObjectMeta.labels meta = None -> Metadata.labels record = ∅) /\
    (V1ObjectMeta.annotations meta = None -> Metadata.annotations record = ∅) /\
    (V1PodStatus.conditions status = None -> Metadata.conditions record = []) /\
    (V1PodSpec.containers spec = None -> Metadata.containers record = []) /\
    (V1PodStatus.start_time status = None -> Metadata.start_time record = None) /\
    (forall containers i container,
       V1PodSpec.containers spec = Some containers ->
       containers !! i = Some container ->
       V1Container.ports container = None ->
       exists entry,
         Metadata.containers record !! i = Some entry /\
         Container.name entry = V1Container.name container /\
         Container.image entry = V1Container.image container /\
         Container.ports entry = []).
Proof.
  intros Hmeta Hspec Hstatus.
  unfold extract_pod_metadata. rewrite Hmeta, Hspec, Hstatus. simpl.
  eexists. split; [reflexivity|]. simpl.
  repeat split; try (now intros ->).
  intros containers i container -> Hi Hports. simpl.
  exists (extract_container container).
  rewrite list_lookup_fmap, Hi. simpl. rewrite Hports. now repeat split.
Qed.

Lemma extract_pod_metadata_absent_parts_witness :
  exists record,
    extract_pod_metadata bare = Returns record /\
    Metadata.labels record = ∅ /\
    Metadata.annotations record = ∅ /\
    Metadata.conditions record = [] /\
    Metadata.start_time record = None /\
    exists entry,
      Metadata.containers record !! 0%nat = Some entry /\ Container.ports entry = [].
Proof.
  destruct (extract_pod_metadata_absent_parts bare _ _ _ eq_refl eq_refl eq_refl)
    as (record & Hrecord & Hlabels & Hannotations & Hconditions & _ & Hstart & Hports).
  exists record. split; [exact Hrecord|].
  split; [exact (Hlabels eq_refl)|].
  split; [exact (Hannotations eq_refl)|].
  split; [exact (Hconditions eq_refl)|].
  split; [exact (Hstart eq_refl)|].
  destruct (Hports _ 0%nat _ eq_refl eq_refl eq_refl) as (entry & Hentry & _ & _ & Hnone).
  exists entry. split; [exact Hentry | exact Hnone].
Defined.

(** ** The lookup endpoint *)

(** C8 (as the code has it). The three answers of the lookup endpoint:
    400 with the error "IP parameter is required" when [ip] is omitted or
    empty; 404 with an error naming the address when [ip] is a non-empty
    address that is not in the index; 200 with the record when [ip] is a
    non-empty address of the index.  The index is not changed. *)
Theorem get_pod_by_ip_responses (ip : option string) (m : gmap string Metadata.t) :
  result (get_pod_by_ip ip m) =
    Returns
      match ip with
      | None => (ErrorBody "IP parameter is required", 400)
      | Some address =>
          if String.eqb address "" then (ErrorBody "IP parameter is required", 400)
          else
            match m !! address with
            | Some record => (PodBody record, 200)
            | None => (ErrorBody ("No pod found with IP " +:+ address), 404)
            end
      end /\
  final (get_pod_by_ip ip m) = m.
Proof.
  destruct ip as [address|]; [|split; reflexivity].
  destruct (String.eqb address "") eqn:Hempty.
  - unfold get_pod_by_ip, truthy. rewrite Hempty. split; reflexivity.
  - assert (Htruthy : truthy address = true) by (unfold truthy; now rewrite Hempty).
    destruct (m !! address) as [record|] eqn:Haddress.
    + now rewrite (get_pod_by_ip_present _ _ _ Htruthy Haddress).
    + now rewrite (get_pod_by_ip_absent _ _ Htruthy Haddress).
Qed.

(** C8, the claim as stated fails: the request [GET /pod?ip=] supplies an
    [ip], the empty one, which is not in the (empty) index; the answer is
    400 with "IP parameter is required", not 404. *)
Lemma get_pod_by_ip_empty_ip_is_400 :
  (∅ : gmap string Metadata.t) !! "" = None /\
  result (get_pod_by_ip (Some "") ∅)
    = Returns (ErrorBody "IP parameter is required", 400).
Proof. split; reflexivity. Qed.

(** ** Traces *)

(** Properties of traces that hold of the empty trace and of the
    concatenation of two traces that have them pass through sequencing,
    exception handling and loops. *)
Section Always.
Variable T : list action -> Prop.
Hypothesis T_nil : T [].
Hypothesis T_app : forall t1 t2, T t1 -> T t2 -> T (t1 ++ t2).

Lemma always_ret {A} (a : A) : always T (ret a).
Proof. intros m. exact T_nil. Qed.

Lemma always_raise {A} e : always T (@raise A e).
Proof. intros m. exact T_nil. Qed.

Lemma always_eval {A} (o : outcome A) : always T (eval o).
Proof. intros m. exact T_nil. Qed.

Lemma always_emit a : T [a] -> always T (emit a).
Proof. intros H m. exact H. Qed.

Lemma always_bind {A B} (p : Prog A) (k : A -> Prog B) :
  always T p -> (forall a, always T (k a)) -> always T (bind p k).
Proof.
  intros Hp Hk m. rewrite trace_bind.
  destruct (result (p m)); [apply T_app; [apply Hp | apply Hk] | apply Hp].
Qed.

Lemma always_try_except {A} (p : Prog A) handler :
  always T p -> (forall e, always T (handler e)) -> always T (try_except p handler).
Proof.
  intros Hp Hh m. rewrite trace_try_except.
  destruct (result (p m)); [apply Hp | apply T_app; [apply Hp | apply Hh]].
Qed.

Lemma always_for_each {X} (xs : list X) body :
  (forall x, always T (body x)) -> always T (for_each xs body).
Proof.
  intros Hbody. induction xs as [|x xs IH]; simpl.
  - apply always_ret.
  - apply always_bind; auto.
Qed.

(** The stream loop, given the property of the handling of one event. *)
Lemma always_watch_stream sessions :
  T [OpenStream] -> T [NextEvent] -> T [Log ERROR] -> T [Log INFO] -> T [Sleep 5] ->
  (forall event, always T (handle_event event)) ->
  always T (watch_stream sessions).
Proof.
  intros Hopen Hnext Herror Hinfo Hsleep Hevent.
  induction sessions as [|s rest IH]; simpl; [apply always_ret|].
  apply always_bind; [|done].
  apply always_try_except.
  - unfold consume_stream.
    apply always_bind; [now apply always_emit|]. intros _.
    apply always_bind.
    + apply always_for_each. intros event.
      apply always_bind; [now apply always_emit | auto].
    + intros _. apply always_bind; [now apply always_emit|]. intros _.
      destruct (Session.ending s); [apply always_raise | apply always_ret].
  - intros e. unfold restart_after.
    repeat (apply always_bind; [now apply always_emit|]; intros _).
    now apply always_emit.
Qed.
End Always.

(** The traces of the two loop bodies. *)
Lemma trace_index_listed_pod pod m :
  trace (index_listed_pod pod m) = [] \/
  exists ip, trace (index_listed_pod pod m) = [SetItem ip].
Proof.
  unfold index_listed_pod, bind, if_truthy; simpl.
  destruct (getattr _ _ _) as [[ip|]|]; simpl; auto.
  destruct (truthy ip); simpl; auto.
  destruct (extract_pod_metadata pod); simpl; eauto.
Qed.

Lemma trace_apply_event event_type pod_ip pod m :
  trace (apply_event event_type pod_ip pod m) = [] \/
  exists ip,
    trace (apply_event event_type pod_ip pod m) = [SetItem ip; Log INFO] \/
    trace (apply_event event_type pod_ip pod m) = [Contains ip] \/
    trace (apply_event event_type pod_ip pod m) = [Contains ip; DelItem ip; Log INFO].
Proof.
  unfold apply_event, if_truthy.
  destruct (_ || _); [|destruct (String.eqb event_type "DELETED")]; auto;
    (destruct pod_ip as [ip|]; [|auto]); (destruct (truthy ip); [|auto]).
  - unfold bind; simpl. destruct (extract_pod_metadata pod); simpl; eauto.
  - unfold bind, contains, delitem; simpl.
    destruct (m !! ip) eqn:Hip; simpl; [rewrite Hip; simpl|]; eauto.
Qed.

Lemma trace_handle_event event m :
  trace (handle_event event m) = [] \/
  trace (handle_event event m)
    = Log DEBUG :: Acquire
        :: trace (apply_event (Event.type event)
                    (V1Pod.status (Event.object event) ≫= V1PodStatus.pod_ip)
                    (Event.object event) m)
        ++ [Release].
Proof.
  unfold handle_event, bind, with_pod_map_lock; simpl.
  destruct (V1Pod.status (Event.object event)); simpl; auto.
  destruct (V1Pod.metadata (Event.object event)); simpl; auto.
Qed.

(** An action that none of the loop bodies performs is not in the trace of
    the stream loop. *)
Lemma handle_event_emits (P : action -> Prop) event :
  P (Log DEBUG) -> P (Log INFO) -> P Acquire -> P Release ->
  (forall ip, P (SetItem ip) /\ P (DelItem ip) /\ P (Contains ip)) ->
  always (Forall P) (handle_event event).
Proof.
  intros Hdebug Hinfo Hacquire Hrelease Hdict m.
  destruct (trace_handle_event event m) as [-> | ->]; [constructor|].
  repeat constructor; try done.
  apply Forall_app. split; [|repeat constructor; done].
  destruct (trace_apply_event (Event.type event)
              (V1Pod.status (Event.object event) ≫= V1PodStatus.pod_ip)
              (Event.object event) m) as [-> | [ip [-> | [-> | ->]]]];
    repeat constructor; try done; apply Hdict.
Qed.

Lemma watch_stream_never_lists sessions m :
  Forall (fun a => a <> ListPods) (trace (watch_stream sessions m)).
Proof.
  apply always_watch_stream; try (repeat constructor; discriminate).
  - apply Forall_app_2.
  - intros event. apply handle_event_emits; try discriminate.
    intros ip. repeat split; discriminate.
Qed.

(** ** The stream loop *)

Lemma restart_after_run e m :
  restart_after e m = Run (Returns tt) m [Log ERROR; Log INFO; Sleep 5].
Proof. reflexivity. Qed.

(** One turn of [while True]: the session, the backoff if it raised, and
    then the rest of the loop, from the dictionary the session left. *)
Lemma watch_stream_cons s rest m :
  watch_stream (s :: rest) m
    = Run (Returns tt)
        (final (watch_stream rest (final (consume_stream s m))))
        (trace (consume_stream s m)
           ++ match result (consume_stream s m) with
              | Returns _ => []
              | Raises e => [Log ERROR; Log INFO; Sleep 5]
              end
           ++ trace (watch_stream rest (final (consume_stream s m)))).
Proof.
  apply run_ext.
  - apply watch_stream_returns.
  - apply final_watch_stream_cons.
  - change (watch_stream (s :: rest))
      with (try_except (consume_stream s) restart_after ;; watch_stream rest).
    rewrite trace_bind, result_try_except, trace_try_except,
      final_try_consume_stream.
    destruct (result (consume_stream s m)) as [[]|e];
      rewrite ?restart_after_run; cbn [trace result]; now rewrite <- ?app_assoc.
Qed.

Lemma watch_stream_app before after m :
  watch_stream (before ++ after) m
    = Run (Returns tt)
        (final (watch_stream after (final (watch_stream before m))))
        (trace (watch_stream before m)
           ++ trace (watch_stream after (final (watch_stream before m)))).
Proof.
  revert m. induction before as [|s before IH]; intros m.
  - simpl. apply run_ext; simpl; auto using watch_stream_returns.
  - change ((s :: before) ++ after) with (s :: (before ++ after)).
    rewrite !watch_stream_cons, IH. simpl. now rewrite <- !app_assoc.
Qed.

(** Every turn of the loop begins by opening the stream. *)
Lemma watch_stream_opens s rest m :
  exists t, trace (watch_stream (s :: rest) m) = OpenStream :: t.
Proof.
  rewrite watch_stream_cons. cbn [trace].
  unfold consume_stream at 1. rewrite trace_bind. cbn. eauto.
Qed.

(** C2 (as the code has it). The stream loop goes on after a session of
    the stream is over, however it ended.  For a session [s] of a run, with
    the sessions [before] it and the sessions [next :: rest] after it:
    no exception leaves the loop; the loop never lists the pods again;
    the handler of an exception logs, sleeps 5 seconds and leaves the index
    as it is; after [s] the loop opens the stream again, on the index that
    [s] left: after the 5 seconds of the handler when [s] raised, and at
    once, with no wait, when [s] ended without raising. *)
Theorem stream_loop_restarts
    (before : list Session.t) (s next : Session.t) (rest : list Session.t)
    (m : gmap string Metadata.t) :
  let opened_on := final (watch_stream before m) in
  let left := final (consume_stream s opened_on) in
  result (watch_stream (before ++ s :: next :: rest) m) = Returns tt /\
  Forall (fun a => a <> ListPods) (trace (watch_stream (before ++ s :: next :: rest) m)) /\
  (forall e m', restart_after e m' = Run (Returns tt) m' [Log ERROR; Log INFO; Sleep 5]) /\
  (exists t,
     trace (watch_stream (next :: rest) left) = OpenStream :: t /\
     trace (watch_stream (before ++ s :: next :: rest) m)
       = trace (watch_stream before m)
           ++ trace (consume_stream s opened_on)
           ++ match result (consume_stream s opened_on) with
              | Returns _ => []
              | Raises e => [Log ERROR; Log INFO; Sleep 5]
              end
           ++ OpenStream :: t) /\
  final (watch_stream (before ++ s :: next :: rest) m)
    = final (watch_stream (next :: rest) left).
Proof.
  intros opened_on left.
  split; [apply watch_stream_returns|].
  split; [apply watch_stream_never_lists|].
  split; [apply restart_after_run|].
  split.
  - destruct (watch_stream_opens next rest left) as [t Ht].
    exists t. split; [exact Ht|].
    rewrite watch_stream_app. cbn [trace].
    rewrite (watch_stream_cons s). cbn [trace]. fold opened_on. fold left.
    now rewrite Ht.
  - rewrite watch_stream_app. cbn [final].
    now rewrite (watch_stream_cons s).
Qed.

(** C2, the claim as stated fails: two sessions of the stream that end
    without raising (the server closes the watch).  The loop opens the
    stream again straight after the first one ends: there is no sleep
    between the end of the first session and the second [OpenStream]. *)
Lemma stream_end_has_no_backoff :
  trace (watch_stream [Session.mk [] None; Session.mk [] None] ∅)
    = [OpenStream; NextEvent; OpenStream; NextEvent].
Proof. reflexivity. Qed.

(** ** The lock *)

Lemma lock_after_app held t1 t2 :
  lock_after held (t1 ++ t2) = lock_after held t1 ≫= fun held' => lock_after held' t2.
Proof.
  revert held. induction t1 as [|a t1 IH]; intros held; [reflexivity|].
  destruct a, held; simpl; auto.
Qed.

(** [keeps held t]: [t] follows the discipline from a lock that is [held],
    and leaves it as it found it. *)
Lemma keeps_app held t1 t2 :
  lock_after held t1 = Some held -> lock_after held t2 = Some held ->
  lock_after held (t1 ++ t2) = Some held.
Proof. intros H1 H2. rewrite lock_after_app, H1. exact H2. Qed.

Lemma with_pod_map_lock_keeps {A} (p : Prog A) :
  always (fun t => lock_after true t = Some true) p ->
  always (fun t => lock_after false t = Some false) (with_pod_map_lock p).
Proof.
  intros Hp m. unfold with_pod_map_lock. cbn [trace]. simpl.
  rewrite lock_after_app, (Hp m). reflexivity.
Qed.

Lemma apply_event_keeps event_type pod_ip pod :
  always (fun t => lock_after true t = Some true) (apply_event event_type pod_ip pod).
Proof.
  intros m.
  destruct (trace_apply_event event_type pod_ip pod m)
    as [-> | [ip [-> | [-> | ->]]]]; reflexivity.
Qed.

Lemma handle_event_keeps event :
  always (fun t => lock_after false t = Some false) (handle_event event).
Proof.
  intros m. destruct (trace_handle_event event m) as [-> | ->]; [reflexivity|].
  simpl. rewrite lock_after_app, apply_event_keeps. reflexivity.
Qed.

Lemma index_listed_pod_keeps pod :
  always (fun t => lock_after true t = Some true) (index_listed_pod pod).
Proof.
  intros m. destruct (trace_index_listed_pod pod m) as [-> | [ip ->]]; reflexivity.
Qed.

Lemma initial_listing_keeps listing :
  always (fun t => lock_after false t = Some false) (initial_listing listing).
Proof.
  pose proof (keeps_app false) as Happ.
  apply always_try_except; [done..| |intros; now apply always_emit].
  apply always_bind; [done..|now apply always_emit|]. intros _.
  apply always_bind; [done..|now apply always_eval|]. intros pod_list.
  apply always_bind; [done..| |].
  - apply with_pod_map_lock_keeps.
    apply always_for_each; [done | apply keeps_app | apply index_listed_pod_keeps].
  - intros _. apply always_bind; [done..|now intros m|].
    intros _. now apply always_emit.
Qed.

Lemma watch_pods_keeps listing sessions :
  always (fun t => lock_after false t = Some false) (watch_pods listing sessions).
Proof.
  pose proof (keeps_app false) as Happ.
  apply always_bind; [done..|now apply always_emit|]. intros _.
  apply always_bind; [done..|apply initial_listing_keeps|]. intros _.
  apply always_watch_stream; try done. apply handle_event_keeps.
Qed.

Lemma get_pod_by_ip_keeps ip :
  always (fun t => lock_after false t = Some false) (get_pod_by_ip ip).
Proof.
  intros m. destruct ip as [ip|]; [|reflexivity].
  destruct (truthy ip) eqn:Htruthy.
  - destruct (m !! ip) as [record|] eqn:Hip.
    + now rewrite (get_pod_by_ip_present _ _ _ Htruthy Hip).
    + now rewrite (get_pod_by_ip_absent _ _ Htruthy Hip).
  - unfold get_pod_by_ip. now rewrite Htruthy.
Qed.

Lemma get_all_pods_keeps namespace :
  always (fun t => lock_after false t = Some false) (get_all_pods namespace).
Proof.
  intros m. unfold get_all_pods.
  destruct namespace as [ns|]; [destruct (truthy ns)|]; reflexivity.
Qed.

(** Writes in the stream loop: one for each time the lock is taken. *)
Lemma writes_after_app n t1 t2 :
  writes_after n (t1 ++ t2) = writes_after n t1 ≫= fun n' => writes_after n' t2.
Proof.
  revert n. induction t1 as [|a t1 IH]; intros n; [reflexivity|].
  destruct a; simpl; auto; destruct n; auto.
Qed.

Lemma watch_stream_one_write sessions :
  always (fun t => forall n, is_Some (writes_after n t)) (watch_stream sessions).
Proof.
  apply always_watch_stream; try (intros n; simpl; solve [eauto]).
  - intros t1 t2 H1 H2 n. rewrite writes_after_app.
    destruct (H1 n) as [n' ->]. apply H2.
  - intros event m n.
    destruct (trace_handle_event event m) as [-> | ->]; [simpl; eauto|].
    destruct (trace_apply_event (Event.type event)
                (V1Pod.status (Event.object event) ≫= V1PodStatus.pod_ip)
                (Event.object event) m) as [-> | [ip [-> | [-> | ->]]]];
      simpl; eauto.
Qed.

(** The one hold of the initial listing, around the whole loop. *)
Lemma for_each_index_listed_pod_sets pods m :
  Forall (fun a => exists ip, a = SetItem ip) (trace (for_each pods index_listed_pod m)).
Proof.
  apply always_for_each; [constructor | apply Forall_app_2 |].
  intros pod m'. destruct (trace_index_listed_pod pod m') as [-> | [ip ->]];
    repeat constructor; eauto.
Qed.

Lemma trace_initial_listing pods m :
  exists tail,
    trace (initial_listing (Returns pods) m)
      = ListPods :: Acquire :: trace (for_each pods index_listed_pod m) ++ Release :: tail /\
    (tail = [Len; Log INFO] \/ tail = [Log ERROR]).
Proof.
  unfold initial_listing, try_except, bind, with_pod_map_lock; simpl.
  destruct (for_each pods index_listed_pod m) as [[[]|e] m' t]; simpl.
  - exists [Len; Log INFO]. rewrite <- !app_assoc. auto.
  - exists [Log ERROR]. rewrite <- !app_assoc. auto.
Qed.

(** C9 (as the code has it). The one lock [pod_map_lock] and how long it
    is held.  Along every run of the watcher and of the lookup and listing
    endpoints, the lock is taken only when free and released only when
    held, every write of the index and every lookup of its records happens
    with the lock held, and no network wait or sleep happens with the lock
    held.  The stream loop writes at most once each time it takes the lock
    (one upsert or one remove).  The initial listing takes the lock once,
    after the listing call has returned, and holds it around the whole loop
    over the listed pods, that is, for all the upserts of the listing. *)
Theorem locking_discipline
    (listing : outcome (list V1Pod.t)) (pods : list V1Pod.t)
    (sessions : list Session.t) (ip namespace : option string)
    (m : gmap string Metadata.t) :
  lock_after false (trace (watch_pods listing sessions m)) = Some false /\
  lock_after false (trace (get_pod_by_ip ip m)) = Some false /\
  lock_after false (trace (get_all_pods namespace m)) = Some false /\
  (exists n, writes_after 0 (trace (watch_stream sessions m)) = Some n) /\
  (exists tail,
     trace (initial_listing (Returns pods) m)
       = ListPods :: Acquire
           :: trace (for_each pods index_listed_pod m) ++ Release :: tail /\
     Forall (fun a => exists ip, a = SetItem ip)
       (trace (for_each pods index_listed_pod m)) /\
     (tail = [Len; Log INFO] \/ tail = [Log ERROR])).
Proof.
  split; [apply watch_pods_keeps|].
  split; [apply get_pod_by_ip_keeps|].
  split; [apply get_all_pods_keeps|].
  split; [apply watch_stream_one_write|].
  destruct (trace_initial_listing pods m) as (tail & Htrace & Htail).
  exists tail. split; [exact Htrace|].
  split; [apply for_each_index_listed_pod_sets | exact Htail].
Qed.

(** C9, the claim as stated fails: the initial listing of two pods.  The
    lock is taken once and both upserts are done before it is released: the
    writer holds the lock for more than a single upsert. *)
Lemma initial_listing_holds_lock_across_upserts :
  trace (initial_listing
           (Returns [running_at "db" "10.0.0.1"; running_at "web" "10.0.0.2"]) ∅)
    = [ListPods; Acquire; SetItem "10.0.0.1"; SetItem "10.0.0.2"; Release;
       Len; Log INFO] /\
  writes_after 0
    (trace (initial_listing
              (Returns [running_at "db" "10.0.0.1"; running_at "web" "10.0.0.2"]) ∅))
    = None.
Proof. split; reflexivity. Qed.

(** * Further properties of the program *)

(** ** When the loop bodies raise *)

Lemma index_listed_pod_indexable pod m :
  indexable pod = true -> result (index_listed_pod pod m) = Returns tt.
Proof.
  destruct pod as [[meta|] [spec|] [[phase [ip|] host_ip start_time conditions]|]];
    unfold indexable, well_formed, index_listed_pod, bind, if_truthy; simpl;
    try discriminate; try reflexivity;
    destruct (truthy ip); simpl; try discriminate; reflexivity.
Qed.

Lemma index_listed_pod_not_indexable pod m :
  indexable pod = false -> exists e, index_listed_pod pod m = Run (Raises e) m [].
Proof.
  destruct pod as [[meta|] [spec|] [[phase [ip|] host_ip start_time conditions]|]];
    unfold indexable, well_formed, index_listed_pod, bind, if_truthy; simpl;
    try discriminate; eauto;
    destruct (truthy ip); simpl; try discriminate; eauto.
Qed.

Lemma handle_event_handled event m :
  handled event = true -> result (handle_event event m) = Returns tt.
Proof.
  destruct event as [event_type
    [[meta|] [spec|] [[phase [ip|] host_ip start_time conditions]|]]];
    unfold handled, well_formed, handle_event, apply_event, bind,
      with_pod_map_lock, if_truthy, contains, delitem;
    simpl; try discriminate;
    destruct (_ || _); try (destruct (String.eqb event_type "DELETED"));
    simpl; try reflexivity;
    destruct (truthy ip); simpl; try discriminate; try reflexivity;
    destruct (m !! ip) eqn:Hip; simpl; rewrite ?Hip; reflexivity.
Qed.

Lemma handle_event_not_handled event m :
  handled event = false ->
  exists e t, handle_event event m = Run (Raises e) m t.
Proof.
  destruct event as [event_type
    [[meta|] [spec|] [[phase [ip|] host_ip start_time conditions]|]]];
    unfold handled, well_formed, handle_event, apply_event, bind,
      with_pod_map_lock, if_truthy;
    simpl; eauto;
    destruct (_ || _); simpl; try discriminate;
    destruct (truthy ip); simpl; try discriminate; eauto.
Qed.

(** X1. The body of the listing loop returns exactly on the pods that have
    a status and, when the status has a non-empty address, also metadata and
    a spec.  On any other pod it raises and leaves the index as it was, with
    no dictionary access: so a pod whose status is missing raises, although
    it has no address to index. *)
Theorem index_listed_pod_returns_iff (pod : V1Pod.t) (m : gmap string Metadata.t) :
  (result (index_listed_pod pod m) = Returns tt <-> indexable pod = true) /\
  (indexable pod = false ->
   final (index_listed_pod pod m) = m /\ trace (index_listed_pod pod m) = []).
Proof.
  split; [split|].
  - intros Hreturns. destruct (indexable pod) eqn:Hpod; [reflexivity|].
    destruct (index_listed_pod_not_indexable pod m Hpod) as [e He].
    rewrite He in Hreturns. discriminate.
  - apply index_listed_pod_indexable.
  - intros Hpod. destruct (index_listed_pod_not_indexable pod m Hpod) as [e ->].
    split; reflexivity.
Qed.

(** X2. The body of the stream loop returns exactly on the events whose pod
    has a status and metadata and, for a created or updated pod with a
    non-empty address, also a spec.  On any other event it raises with the
    index as it was: in particular a deleted event whose pod has no metadata
    raises at the debug message, before the entry is removed. *)
Theorem handle_event_returns_iff (event : Event.t) (m : gmap string Metadata.t) :
  (result (handle_event event m) = Returns tt <-> handled event = true) /\
  (handled event = false -> final (handle_event event m) = m).
Proof.
  split; [split|].
  - intros Hreturns. destruct (handled event) eqn:Hevent; [reflexivity|].
    destruct (handle_event_not_handled event m Hevent) as (e & t & He).
    rewrite He in Hreturns. discriminate.
  - apply handle_event_handled.
  - intros Hevent. destruct (handle_event_not_handled event m Hevent) as (e & t & ->).
    reflexivity.
Qed.

(** ** What the loop bodies do to the index *)

Lemma final_index_listed_pod pod m :
  final (index_listed_pod pod m) = m \/
  exists ip record,
    address_of pod = Some ip /\ truthy ip = true /\
    extract_pod_metadata pod = Returns record /\
    final (index_listed_pod pod m) = <[ip := record]> m.
Proof.
  unfold index_listed_pod, address_of, bind, if_truthy; simpl.
  destruct (V1Pod.status pod) as [status|]; simpl; [|auto].
  destruct (V1PodStatus.pod_ip status) as [ip|]; simpl; [|auto].
  destruct (truthy ip) eqn:Htruthy; simpl; [|auto].
  destruct (extract_pod_metadata pod) as [record|] eqn:Hrecord; simpl; [|auto].
  right. exists ip, record. auto.
Qed.

Lemma final_handle_event event m :
  final (handle_event event m) = m \/
  (exists ip record,
     address_of (Event.object event) = Some ip /\ truthy ip = true /\
     extract_pod_metadata (Event.object event) = Returns record /\
     final (handle_event event m) = <[ip := record]> m) \/
  (exists ip,
     address_of (Event.object event) = Some ip /\ truthy ip = true /\
     final (handle_event event m) = delete ip m).
Proof.
  unfold handle_event, address_of, apply_event, bind, with_pod_map_lock, if_truthy;
    simpl.
  destruct (V1Pod.status (Event.object event)) as [status|]; simpl; [|auto].
  destruct (V1Pod.metadata (Event.object event)) as [meta|]; simpl; [|auto].
  destruct (_ || _); [|destruct (String.eqb (Event.type event) "DELETED")];
    [| |auto];
    (destruct (V1PodStatus.pod_ip status) as [ip|]; simpl; [|auto]);
    (destruct (truthy ip) eqn:Htruthy; simpl; [|auto]).
  - destruct (extract_pod_metadata (Event.object event)) as [record|] eqn:Hrecord;
      simpl; [|auto].
    right; left. exists ip, record. auto.
  - unfold contains, delitem; simpl.
    destruct (m !! ip) eqn:Hip; simpl; [|auto].
    rewrite Hip; simpl. right; right. exists ip. auto.
Qed.

(** An invariant of the dictionary that survives the upserts of the pods
    of a given set and every remove survives the loops of the watcher over
    pods of that set. *)
Section Invariant.
Variable I : gmap string Metadata.t -> Prop.
Variable given : V1Pod.t -> Prop.
Hypothesis I_upsert : forall pod ip record m,
  given pod -> address_of pod = Some ip -> truthy ip = true ->
  extract_pod_metadata pod = Returns record -> I m -> I (<[ip := record]> m).
Hypothesis I_remove : forall ip m, truthy ip = true -> I m -> I (delete ip m).

Lemma invariant_index_listed_pod pod :
  given pod -> preserves I (index_listed_pod pod).
Proof.
  intros Hpod m Hm.
  destruct (final_index_listed_pod pod m) as [-> | (ip & record & ? & ? & ? & ->)];
    eauto.
Qed.

Lemma invariant_handle_event event :
  given (Event.object event) -> preserves I (handle_event event).
Proof.
  intros Hpod m Hm.
  destruct (final_handle_event event m)
    as [-> | [(ip & record & ? & ? & ? & ->) | (ip & ? & ? & ->)]]; eauto.
Qed.

Lemma invariant_for_each {X} (xs : list X) body :
  Forall (fun x => preserves I (body x)) xs -> preserves I (for_each xs body).
Proof.
  induction 1 as [|x xs Hx _ IH]; simpl.
  - apply preserves_ret.
  - apply preserves_bind; auto.
Qed.

Lemma invariant_initial_listing listing :
  Forall given (match listing with Returns pods => pods | Raises _ => [] end) ->
  preserves I (initial_listing listing).
Proof.
  intros Hgiven m Hm. destruct listing as [pods|e]; [|exact Hm].
  rewrite final_initial_listing. revert m Hm.
  apply invariant_for_each.
  eapply Forall_impl; [exact Hgiven|]. apply invariant_index_listed_pod.
Qed.

Lemma invariant_watch_stream sessions :
  Forall given (map Event.object (concat (map Session.events sessions))) ->
  preserves I (watch_stream sessions).
Proof.
  induction sessions as [|s rest IH]; simpl; [intros; apply preserves_ret|].
  rewrite fmap_app, Forall_app. intros [Hs Hrest].
  apply preserves_bind; [|auto].
  apply preserves_try_except.
  - unfold consume_stream.
    apply preserves_bind; [apply preserves_emit|]. intros _.
    apply preserves_bind.
    + apply invariant_for_each.
      rewrite Forall_fmap in Hs. eapply Forall_impl; [exact Hs|].
      intros event Hevent. simpl in Hevent.
      apply preserves_bind; [apply preserves_emit|]. intros _.
      now apply invariant_handle_event.
    + intros _. apply preserves_bind; [apply preserves_emit|]. intros _.
      destruct (Session.ending s); [apply preserves_raise | apply preserves_ret].
  - intros e m Hm. exact Hm.
Qed.

Lemma invariant_watch_pods listing sessions :
  Forall given (pods_given listing sessions) ->
  preserves I (watch_pods listing sessions).
Proof.
  unfold pods_given. rewrite Forall_app. intros [Hlisting Hsessions].
  apply preserves_bind; [apply preserves_emit|]. intros _.
  apply preserves_bind; [now apply invariant_initial_listing|]. intros _.
  now apply invariant_watch_stream.
Qed.
End Invariant.

(** ** The initial listing, in general *)

Lemma for_each_index_listed_pod_returns pods m :
  Forall (fun pod => indexable pod = true) pods ->
  result (for_each pods index_listed_pod m) = Returns tt.
Proof.
  intros Hpods. revert m. induction Hpods as [|pod pods Hpod _ IH]; intros m.
  - reflexivity.
  - simpl. rewrite result_bind, (index_listed_pod_indexable pod m Hpod). apply IH.
Qed.

(** X3. The listing stops at the first pod on which the loop body raises,
    whatever the reason (no status, or an address without metadata or
    spec): the pods before it are indexed, the pods after it are not looked
    at, the lock is released and the error is logged.  The index is the one
    of a listing that ended just before that pod. *)
Theorem initial_listing_stops_at_first_failure
    (before after : list V1Pod.t) (bad : V1Pod.t) (m : gmap string Metadata.t) :
  Forall (fun pod => indexable pod = true) before ->
  indexable bad = false ->
  initial_listing (Returns (before ++ bad :: after)) m
    = Run (Returns tt)
        (final (for_each before index_listed_pod m))
        (ListPods :: Acquire :: trace (for_each before index_listed_pod m)
           ++ [Release; Log ERROR]) /\
  final (initial_listing (Returns (before ++ bad :: after)) m)
    = final (initial_listing (Returns before) m).
Proof.
  intros Hbefore Hbad.
  pose proof (for_each_index_listed_pod_returns before m Hbefore) as Hres.
  destruct (index_listed_pod_not_indexable bad
              (final (for_each before index_listed_pod m)) Hbad) as [e He].
  assert (Hloop : for_each (before ++ bad :: after) index_listed_pod m
    = Run (Raises e) (final (for_each before index_listed_pod m))
          (trace (for_each before index_listed_pod m))).
  { rewrite for_each_app, (bind_returns _ _ _ _ Hres).
    rewrite (for_each_raises bad after index_listed_pod _ e) by now rewrite He.
    rewrite He. cbn [result final trace]. now rewrite app_nil_r. }
  split.
  - unfold initial_listing, try_except, bind, with_pod_map_lock; simpl.
    rewrite Hloop. simpl. now rewrite <- app_assoc.
  - rewrite !final_initial_listing. now rewrite Hloop.
Qed.

Lemma initial_listing_stops_at_first_failure_witness :
  final (initial_listing
           (Returns [running_at "db" "10.0.0.3"; without_status "ghost";
                     running_at "web" "10.0.0.2"]) ∅)
    = final (initial_listing (Returns [running_at "db" "10.0.0.3"]) ∅).
Proof.
  refine (proj2 (initial_listing_stops_at_first_failure
                   [running_at "db" "10.0.0.3"] [running_at "web" "10.0.0.2"]
                   (without_status "ghost") ∅ _ _)).
  - repeat constructor.
  - reflexivity.
Defined.

Lemma index_listed_pod_lookup pod m address :
  indexable pod = true ->
  final (index_listed_pod pod m) !! address
    = replayed address [Event.mk "ADDED" pod] (m !! address).
Proof.
  destruct pod as [[meta|] [spec|] [[phase [ip|] host_ip start_time conditions]|]];
    unfold indexable, well_formed, index_listed_pod, replayed, bind, if_truthy;
    simpl; unfold operation_on; simpl; try discriminate; try reflexivity;
    destruct (truthy ip); simpl; try discriminate; try reflexivity.
  intros _. destruct (String.eqb_spec ip address) as [->|Hne].
  - now rewrite lookup_insert_eq.
  - now rewrite lookup_insert_ne.
Qed.

Lemma extract_pod_metadata_address pod record ip :
  extract_pod_metadata pod = Returns record ->
  address_of pod = Some ip ->
  Metadata.pod_ip record = Some ip.
Proof.
  intros Hrecord Haddress. apply extract_pod_metadata_pod_ip in Hrecord.
  unfold address_of in Haddress.
  destruct (V1Pod.status pod) as [status|]; [|discriminate].
  simpl in *. injection Hrecord as Hrecord. congruence.
Qed.

Lemma index_listed_pod_indexes pod m ip :
  indexable pod = true -> address_of pod = Some ip -> truthy ip = true ->
  exists record,
    extract_pod_metadata pod = Returns record /\
    final (index_listed_pod pod m) = <[ip := record]> m.
Proof.
  destruct pod as [[meta|] [spec|] [[phase pod_ip host_ip start_time conditions]|]];
    unfold indexable, well_formed, address_of, index_listed_pod, bind, if_truthy;
    simpl; try discriminate;
    intros Hwf [= ->] Htruthy; rewrite Htruthy in *; try discriminate.
  simpl. eauto.
Qed.

(** X4. A listing that goes through: when the loop body raises on none of
    the listed pods, the listing returns without an error log, and the
    index holds at every address the record of the last listed pod that has
    this address, and what it held before at the addresses of no listed
    pod.  In particular every listed pod with a non-empty address finds an
    entry at its address, whose record carries that address. *)
Theorem initial_listing_indexes_listed_pods
    (pods : list V1Pod.t) (m : gmap string Metadata.t) :
  Forall (fun pod => indexable pod = true) pods ->
  initial_listing (Returns pods) m
    = Run (Returns tt)
        (final (for_each pods index_listed_pod m))
        (ListPods :: Acquire :: trace (for_each pods index_listed_pod m)
           ++ [Release; Len; Log INFO]) /\
  (forall address,
     final (initial_listing (Returns pods) m) !! address
       = replayed address (map (Event.mk "ADDED") pods) (m !! address)) /\
  (forall pod ip,
     In pod pods -> address_of pod = Some ip -> truthy ip = true ->
     exists record,
       final (initial_listing (Returns pods) m) !! ip = Some record /\
       Metadata.pod_ip record = Some ip).
Proof.
  intros Hpods.
  pose proof (for_each_index_listed_pod_returns pods m Hpods) as Hres.
  split; [|split].
  - unfold initial_listing, try_except, bind, with_pod_map_lock; simpl.
    destruct (for_each pods index_listed_pod m) as [[[]|e] m' t];
      simpl in *; [|discriminate]. now rewrite <- app_assoc.
  - intros address. rewrite final_initial_listing.
    clear Hres. revert m. induction Hpods as [|pod pods Hpod _ IH]; intros m.
    + reflexivity.
    + simpl. rewrite final_bind, (index_listed_pod_indexable pod m Hpod).
      now rewrite IH, (index_listed_pod_lookup pod m address Hpod), <- replayed_cons.
  - intros pod ip Hin Haddress Htruthy. rewrite final_initial_listing.
    clear Hres. revert m. induction Hpods as [|first pods Hfirst Hpods IH]; intros m.
    + destruct Hin.
    + simpl. rewrite final_bind, (index_listed_pod_indexable first m Hfirst).
      destruct Hin as [-> | Hin]; [|now apply IH].
      assert (Hnow : exists record,
                final (index_listed_pod pod m) !! ip = Some record /\
                Metadata.pod_ip record = Some ip).
      { destruct (index_listed_pod_indexes pod m ip Hfirst Haddress Htruthy)
          as (record & Hrecord & ->).
        exists record. rewrite lookup_insert_eq. split; [reflexivity|].
        now apply (extract_pod_metadata_address pod). }
      clear IH. revert Hnow.
      generalize (final (index_listed_pod pod m)). clear m.
      induction Hpods as [|next pods Hnext _ IH]; intros m Hm; [exact Hm|].
      simpl. rewrite final_bind, (index_listed_pod_indexable next m Hnext).
      apply IH.
      destruct Hm as (record & Hrecord & Hip).
      destruct (final_index_listed_pod next m)
        as [-> | (ip' & record' & Hip' & _ & Hrecord' & ->)]; [eauto|].
      destruct (decide (ip' = ip)) as [->|Hne].
      * exists record'. rewrite lookup_insert_eq. split; [reflexivity|].
        now apply (extract_pod_metadata_address next).
      * exists record. now rewrite lookup_insert_ne.
Qed.

Lemma initial_listing_indexes_listed_pods_witness :
  final (initial_listing
           (Returns [running_at "old" "10.0.0.1"; pending "job";
                     running_at "new" "10.0.0.1"]) ∅) !! "10.0.0.1"
    = Some (record_at "new" "10.0.0.1").
Proof.
  refine (proj1 (proj2 (initial_listing_indexes_listed_pods
                          [running_at "old" "10.0.0.1"; pending "job";
                           running_at "new" "10.0.0.1"] ∅ _)) "10.0.0.1").
  repeat constructor.
Defined.

(** ** Whole runs of the watcher *)

Lemma watch_pods_run listing sessions m :
  watch_pods listing sessions m
    = Run (Returns tt)
        (final (watch_stream sessions (final (initial_listing listing m))))
        (Log INFO :: trace (initial_listing listing m)
           ++ trace (watch_stream sessions (final (initial_listing listing m)))).
Proof.
  unfold watch_pods. apply run_ext.
  - rewrite result_bind. simpl.
    rewrite result_bind, initial_listing_returns. apply watch_stream_returns.
  - rewrite final_bind. simpl. now rewrite final_bind, initial_listing_returns.
  - rewrite trace_bind. simpl. now rewrite trace_bind, initial_listing_returns.
Qed.

(** X5. A listing call that fails: the watcher logs the error, indexes
    nothing, and goes on to the stream on the index as it was; the run is
    the run of the stream loop, after the failed call. *)
Theorem watch_pods_after_failed_listing
    (e : Exception) (sessions : list Session.t) (m : gmap string Metadata.t) :
  watch_pods (Raises e) sessions m
    = Run (Returns tt)
        (final (watch_stream sessions m))
        (Log INFO :: ListPods :: Log ERROR :: trace (watch_stream sessions m)).
Proof. now rewrite watch_pods_run. Qed.

Lemma count_app f t1 t2 : count f (t1 ++ t2) = (count f t1 + count f t2)%nat.
Proof.
  induction t1 as [|a t1 IH]; simpl; [reflexivity|].
  destruct (f a); simpl; now rewrite IH.
Qed.

Lemma count_none f t : Forall (fun a => f a = false) t -> count f t = O.
Proof. induction 1 as [|a t Ha _ IH]; simpl; [reflexivity|]. now rewrite Ha. Qed.

Lemma count_initial_listing f listing m :
  f ListPods = true ->
  (forall a, a <> ListPods -> f a = false) ->
  count f (trace (initial_listing listing m)) = 1%nat.
Proof.
  intros Hlist Hother. destruct listing as [pods|e].
  - destruct (trace_initial_listing pods m) as (tail & -> & Htail).
    simpl. rewrite Hlist, (Hother Acquire) by discriminate.
    rewrite count_app. simpl. rewrite (Hother Release) by discriminate.
    rewrite count_none.
    + destruct Htail as [-> | ->]; simpl; now rewrite !Hother by discriminate.
    + eapply Forall_impl; [apply for_each_index_listed_pod_sets|].
      intros a [ip ->]. now apply Hother.
  - simpl. now rewrite Hlist, Hother.
Qed.

Lemma count_for_each_handle_event f events m :
  f NextEvent = false -> f (Log DEBUG) = false -> f (Log INFO) = false ->
  f Acquire = false -> f Release = false ->
  (forall ip, f (SetItem ip) = false /\ f (DelItem ip) = false /\ f (Contains ip) = false) ->
  count f (trace (for_each events
                    (fun event => emit NextEvent ;; handle_event event) m)) = O.
Proof.
  intros Hnext Hdebug Hinfo Hacquire Hrelease Hdict.
  apply count_none. revert m.
  apply always_for_each; [constructor | apply Forall_app_2 |].
  intros event.
  apply always_bind; [apply Forall_app_2 | |].
  - apply always_emit. now repeat constructor.
  - intros _. now apply handle_event_emits.
Qed.

Lemma consume_stream_trace s m :
  trace (consume_stream s m)
    = OpenStream
        :: trace (for_each (Session.events s)
                    (fun event => emit NextEvent ;; handle_event event) m)
        ++ match result (for_each (Session.events s)
                           (fun event => emit NextEvent ;; handle_event event) m) with
           | Returns _ => [NextEvent]
           | Raises _ => []
           end.
Proof.
  unfold consume_stream. rewrite trace_bind. cbn [emit result trace final app].
  rewrite trace_bind.
  destruct (result (for_each _ _ m)); [|now rewrite app_nil_r].
  rewrite trace_bind. cbn [emit result trace final app].
  now destruct (Session.ending s).
Qed.

(** X6. A run of the watcher, whatever the server answers: no exception
    leaves [watch_pods]; the pods are listed exactly once; the stream is
    opened once for each session the server gives, so a session that raised
    never ends the loop; and the thread sleeps at most once for each
    session. *)
Theorem watch_pods_lists_once_opens_each_session
    (listing : outcome (list V1Pod.t)) (sessions : list Session.t)
    (m : gmap string Metadata.t) :
  result (watch_pods listing sessions m) = Returns tt /\
  count is_list_pods (trace (watch_pods listing sessions m)) = 1%nat /\
  count is_open_stream (trace (watch_pods listing sessions m)) = length sessions /\
  (count is_sleep (trace (watch_pods listing sessions m)) <= length sessions)%nat.
Proof.
  rewrite watch_pods_run. cbn [result trace].
  assert (Hstream : forall f m',
    f NextEvent = false -> f (Log DEBUG) = false -> f (Log INFO) = false ->
    f (Log ERROR) = false -> f Acquire = false -> f Release = false ->
    (forall ip, f (SetItem ip) = false /\ f (DelItem ip) = false /\ f (Contains ip) = false) ->
    (count f (trace (watch_stream sessions m'))
       <= (if f OpenStream then 1 else 0) * length sessions
          + (if f (Sleep 5) then 1 else 0) * length sessions)%nat /\
    (f (Sleep 5) = false ->
     count f (trace (watch_stream sessions m'))
       = ((if f OpenStream then 1 else 0) * length sessions)%nat)).
  { intros f m' Hnext Hdebug Hinfo Herror Hacquire Hrelease Hdict. revert m'.
    induction sessions as [|s rest IH]; intros m'; [simpl; split; [lia | intros; lia]|].
    rewrite watch_stream_cons. cbn [trace length].
    rewrite !count_app, consume_stream_trace.
    destruct (IH (final (consume_stream s m'))) as [IHle IHeq].
    change (count f (OpenStream :: ?t)) with
      (if f OpenStream then S (count f t) else count f t).
    rewrite count_app, count_for_each_handle_event by done.
    set (opened := if f OpenStream then 1%nat else 0%nat) in *.
    set (slept := if f (Sleep 5) then 1%nat else 0%nat) in *.
    assert (Hend : count f
              match result (for_each (Session.events s)
                              (fun event => emit NextEvent ;; handle_event event) m') with
              | Returns _ => [NextEvent]
              | Raises _ => []
              end = O).
    { destruct (result _); simpl; [now rewrite Hnext | reflexivity]. }
    assert (Hback : (count f
              match result (consume_stream s m') with
              | Returns _ => []
              | Raises _ => [Log ERROR; Log INFO; Sleep 5]
              end <= slept)%nat /\
            (f (Sleep 5) = false ->
             count f match result (consume_stream s m') with
                     | Returns _ => []
                     | Raises _ => [Log ERROR; Log INFO; Sleep 5]
                     end = O)).
    { subst slept. destruct (result (consume_stream s m')); simpl.
      - split; [lia | reflexivity].
      - rewrite Herror, Hinfo. destruct (f (Sleep 5)); split; try lia; congruence. }
    destruct Hback as [Hle Heq].
    assert (Hopen : (if f OpenStream
                     then S (0 + count f match result (for_each (Session.events s)
                                  (fun event => emit NextEvent ;; handle_event event) m') with
                                | Returns _ => [NextEvent]
                                | Raises _ => []
                                end)
                     else (0 + count f match result (for_each (Session.events s)
                                  (fun event => emit NextEvent ;; handle_event event) m') with
                                | Returns _ => [NextEvent]
                                | Raises _ => []
                                end))%nat = opened).
    { rewrite Hend. subst opened. now destruct (f OpenStream). }
    rewrite Hopen. split.
    - lia.
    - intros Hsleep. rewrite (Heq Hsleep), (IHeq Hsleep). lia. }
  assert (Hlisting : forall f, f ListPods = false -> f Acquire = false ->
            f Release = false -> f Len = false ->
            (forall lvl, f (Log lvl) = false) -> (forall ip, f (SetItem ip) = false) ->
            count f (trace (initial_listing listing m)) = O).
  { intros f Hlist Hacquire Hrelease Hlen Hlog Hset. apply count_none.
    destruct listing as [pods|e]; [|now repeat constructor].
    destruct (trace_initial_listing pods m) as (tail & -> & Htail).
    repeat constructor; try done. apply Forall_app. split.
    - eapply Forall_impl; [apply for_each_index_listed_pod_sets|].
      now intros a [ip ->].
    - destruct Htail as [-> | ->]; now repeat constructor. }
  split; [reflexivity|].
  split; [|split].
  - change (count is_list_pods (Log INFO :: ?t)) with (count is_list_pods t).
    rewrite count_app, (count_initial_listing is_list_pods)
      by (try reflexivity; now intros []).
    destruct (Hstream is_list_pods (final (initial_listing listing m))
                eq_refl eq_refl eq_refl eq_refl eq_refl eq_refl
                (fun ip => conj eq_refl (conj eq_refl eq_refl))) as [_ Heq].
    rewrite (Heq eq_refl). simpl. lia.
  - change (count is_open_stream (Log INFO :: ?t)) with (count is_open_stream t).
    rewrite count_app, Hlisting by done.
    destruct (Hstream is_open_stream (final (initial_listing listing m))
                eq_refl eq_refl eq_refl eq_refl eq_refl eq_refl
                (fun ip => conj eq_refl (conj eq_refl eq_refl))) as [_ Heq].
    rewrite (Heq eq_refl). simpl. lia.
  - change (count is_sleep (Log INFO :: ?t)) with (count is_sleep t).
    rewrite count_app, Hlisting by done.
    destruct (Hstream is_sleep (final (initial_listing listing m))
                eq_refl eq_refl eq_refl eq_refl eq_refl eq_refl
                (fun ip => conj eq_refl (conj eq_refl eq_refl))) as [Hle _].
    simpl in Hle. lia.
Qed.

(** ** Events *)

(** X7. An event touches one address: whatever the event, what the index
    holds at an address other than the address of the event's pod is the
    same before and after the event is handled. *)
Theorem handle_event_keeps_other_addresses
    (event : Event.t) (m : gmap string Metadata.t) (address : string) :
  address_of (Event.object event) <> Some address ->
  final (handle_event event m) !! address = m !! address.
Proof.
  intros Hother.
  destruct (final_handle_event event m)
    as [-> | [(ip & record & Hip & _ & _ & ->) | (ip & Hip & _ & ->)]];
    [reflexivity | |].
  - rewrite lookup_insert_ne; [reflexivity | congruence].
  - rewrite lookup_delete_ne; [reflexivity | congruence].
Qed.

Lemma handle_event_keeps_other_addresses_witness :
  final (handle_event (Event.mk "DELETED" (running_at "web" "10.0.0.2"))
           {["10.0.0.1" := record_at "db" "10.0.0.1";
             "10.0.0.2" := record_at "web" "10.0.0.2"]}) !! "10.0.0.1"
    = ({["10.0.0.1" := record_at "db" "10.0.0.1";
         "10.0.0.2" := record_at "web" "10.0.0.2"]} : gmap string Metadata.t)
        !! "10.0.0.1".
Proof.
  apply (handle_event_keeps_other_addresses
           (Event.mk "DELETED" (running_at "web" "10.0.0.2"))).
  discriminate.
Defined.

(** What an event does to the index does not depend on the index: it
    leaves it, or stores a record at an address, or removes an address. *)
Lemma final_handle_event_cases event :
  (forall m, final (handle_event event m) = m) \/
  (exists ip record, forall m, final (handle_event event m) = <[ip := record]> m) \/
  (exists ip, forall m, final (handle_event event m) = delete ip m).
Proof.
  unfold handle_event, apply_event, bind, with_pod_map_lock, if_truthy; simpl.
  destruct (V1Pod.status (Event.object event)) as [status|]; simpl; [|auto].
  destruct (V1Pod.metadata (Event.object event)) as [meta|]; simpl; [|auto].
  destruct (_ || _); [|destruct (String.eqb (Event.type event) "DELETED")];
    [| |auto];
    (destruct (V1PodStatus.pod_ip status) as [ip|]; simpl; [|auto]);
    (destruct (truthy ip) eqn:Htruthy; simpl; [|auto]).
  - destruct (extract_pod_metadata (Event.object event)) as [record|] eqn:Hrecord;
      simpl; [|auto].
    right; left. exists ip, record. auto.
  - right; right. exists ip. intros m. unfold contains, delitem; simpl.
    destruct (m !! ip) eqn:Hip; simpl.
    + now rewrite Hip.
    + symmetry. now apply delete_id.
Qed.

(** X8. Handling an event twice is handling it once: an event delivered
    again straight after itself leaves the index that its first delivery
    left, whatever the event and the index (a second upsert stores the same
    record, a second remove finds nothing to remove). *)
Theorem handle_event_idempotent (event : Event.t) (m : gmap string Metadata.t) :
  final (handle_event event (final (handle_event event m)))
    = final (handle_event event m).
Proof.
  destruct (final_handle_event_cases event)
    as [Hsame | [(ip & record & Hupsert) | (ip & Hremove)]].
  - now rewrite !Hsame.
  - rewrite !Hupsert. apply insert_insert_eq.
  - rewrite !Hremove. apply delete_delete_eq.
Qed.

(** X9. Kinds of event other than ADDED, MODIFIED and DELETED are ignored:
    the index is left as it was whatever the pod, and for a pod that has a
    status and metadata the event is handled without an exception, the lock
    being taken and released with no access to the dictionary. *)
Theorem handle_event_ignores_other_kinds
    (event_type : string) (pod : V1Pod.t) (m : gmap string Metadata.t) :
  event_type <> "ADDED" -> event_type <> "MODIFIED" -> event_type <> "DELETED" ->
  final (handle_event (Event.mk event_type pod) m) = m /\
  (forall meta status,
     V1Pod.metadata pod = Some meta -> V1Pod.status pod = Some status ->
     handle_event (Event.mk event_type pod) m
       = Run (Returns tt) m [Log DEBUG; Acquire; Release]).
Proof.
  intros Hadded Hmodified Hdeleted.
  apply String.eqb_neq in Hadded, Hmodified, Hdeleted.
  unfold handle_event, apply_event, bind, with_pod_map_lock; simpl.
  rewrite Hadded, Hmodified, Hdeleted. simpl.
  split.
  - destruct (V1Pod.status pod); simpl; [|reflexivity].
    destruct (V1Pod.metadata pod); reflexivity.
  - intros meta status -> ->. reflexivity.
Qed.

Lemma handle_event_ignores_other_kinds_witness :
  handle_event (Event.mk "BOOKMARK" (running_at "web" "10.0.0.2"))
    {["10.0.0.2" := record_at "old" "10.0.0.2"]}
    = Run (Returns tt) {["10.0.0.2" := record_at "old" "10.0.0.2"]}
        [Log DEBUG; Acquire; Release].
Proof.
  refine (proj2 (handle_event_ignores_other_kinds "BOOKMARK"
                   (running_at "web" "10.0.0.2") _ _ _ _) _ _ eq_refl eq_refl);
    discriminate.
Defined.

Lemma for_each_handle_event_returns events m :
  Forall (fun event => handled event = true) events ->
  result (for_each events (fun event => emit NextEvent ;; handle_event event) m)
    = Returns tt.
Proof.
  intros Hevents. revert m. induction Hevents as [|event events Hevent _ IH]; intros m.
  - reflexivity.
  - simpl. rewrite result_bind, result_bind. cbn [emit result final].
    rewrite (handle_event_handled event m Hevent). apply IH.
Qed.

Lemma consume_stream_run s m :
  consume_stream s m
    = match result (for_each (Session.events s)
                      (fun event => emit NextEvent ;; handle_event event) m) with
      | Returns _ =>
          Run match Session.ending s with
              | Some e => Raises e
              | None => Returns tt
              end
              (final (for_each (Session.events s)
                        (fun event => emit NextEvent ;; handle_event event) m))
              (OpenStream
                 :: trace (for_each (Session.events s)
                             (fun event => emit NextEvent ;; handle_event event) m)
                 ++ [NextEvent])
      | Raises e =>
          Run (Raises e)
              (final (for_each (Session.events s)
                        (fun event => emit NextEvent ;; handle_event event) m))
              (OpenStream
                 :: trace (for_each (Session.events s)
                             (fun event => emit NextEvent ;; handle_event event) m))
      end.
Proof.
  unfold consume_stream.
  generalize (for_each (Session.events s)
                (fun event => emit NextEvent ;; handle_event event)).
  intros loop. unfold bind. cbn [emit result final trace app].
  destruct (loop m) as [[[]|e] m' t]; cbn [result final trace]; [|reflexivity].
  destruct (Session.ending s); reflexivity.
Qed.

Lemma next_event_raises event m e t :
  handle_event event m = Run (Raises e) m t ->
  (emit NextEvent ;; handle_event event) m = Run (Raises e) m (NextEvent :: t).
Proof. intros H. unfold bind. cbn [emit result final trace]. now rewrite H. Qed.

(** X10. An event on which the loop body raises ends its session: the
    events delivered before it in the session are applied, the events that
    follow it in the session are never applied, and the loop goes on with
    the next session after the backoff.  The index is the one that the
    session cut before that event would have left. *)
Theorem consume_stream_stops_at_unhandled_event
    (before after : list Event.t) (bad : Event.t) (ending : option Exception)
    (rest : list Session.t) (m : gmap string Metadata.t) :
  Forall (fun event => handled event = true) before ->
  handled bad = false ->
  (exists e, result (consume_stream (Session.mk (before ++ bad :: after) ending) m)
               = Raises e) /\
  final (consume_stream (Session.mk (before ++ bad :: after) ending) m)
    = final (consume_stream (Session.mk before None) m) /\
  final (watch_stream (Session.mk (before ++ bad :: after) ending :: rest) m)
    = final (watch_stream (Session.mk before None :: rest) m) /\
  count is_sleep
    (trace (watch_stream [Session.mk (before ++ bad :: after) ending] m)) = 1%nat.
Proof.
  intros Hbefore Hbad.
  set (body := fun event => emit NextEvent ;; handle_event event).
  pose proof (for_each_handle_event_returns before m Hbefore) as Hres.
  fold body in Hres.
  destruct (handle_event_not_handled bad (final (for_each before body m)) Hbad)
    as (e & t & He).
  assert (Hbody : body bad (final (for_each before body m))
            = Run (Raises e) (final (for_each before body m)) (NextEvent :: t)).
  { exact (next_event_raises bad _ e t He). }
  assert (Hloop : for_each (before ++ bad :: after) body m
    = Run (Raises e) (final (for_each before body m))
          (trace (for_each before body m) ++ NextEvent :: t)).
  { rewrite for_each_app, (bind_returns _ _ _ _ Hres).
    rewrite (for_each_raises bad after body _ e) by now rewrite Hbody.
    now rewrite Hbody. }
  assert (Hbad_session :
    consume_stream (Session.mk (before ++ bad :: after) ending) m
      = Run (Raises e) (final (for_each before body m))
            (OpenStream :: trace (for_each before body m) ++ NextEvent :: t)).
  { rewrite consume_stream_run. cbn [Session.events]. fold body.
    now rewrite Hloop. }
  assert (Hcut : final (consume_stream (Session.mk before None) m)
            = final (for_each before body m)).
  { rewrite consume_stream_run. cbn [Session.events]. fold body.
    now rewrite Hres. }
  split; [exists e; now rewrite Hbad_session|].
  split; [now rewrite Hbad_session, Hcut|].
  split.
  - rewrite !final_watch_stream_cons. now rewrite Hbad_session, Hcut.
  - rewrite watch_stream_cons, Hbad_session. cbn [result trace final watch_stream ret].
    rewrite app_nil_r, count_app.
    change (count is_sleep (OpenStream :: ?l)) with (count is_sleep l).
    rewrite count_app. unfold body.
    rewrite (count_for_each_handle_event is_sleep before m)
      by (try reflexivity; intros; repeat split).
    change (count is_sleep (NextEvent :: t)) with (count is_sleep t).
    assert (Ht : count is_sleep t = O).
    { apply count_none.
      pose proof (handle_event_emits (fun a => is_sleep a = false) bad
                    eq_refl eq_refl eq_refl eq_refl
                    (fun ip => conj eq_refl (conj eq_refl eq_refl))
                    (final (for_each before body m))) as Hemits.
      now rewrite He in Hemits. }
    rewrite Ht. reflexivity.
Qed.

Lemma consume_stream_stops_at_unhandled_event_witness :
  final (watch_stream
           [Session.mk [Event.mk "ADDED" (running_at "db" "10.0.0.1");
                        Event.mk "DELETED" (without_metadata "10.0.0.1");
                        Event.mk "ADDED" (running_at "web" "10.0.0.2")] None] ∅)
    = final (watch_stream
               [Session.mk [Event.mk "ADDED" (running_at "db" "10.0.0.1")] None] ∅).
Proof.
  refine (proj1 (proj2 (proj2 (consume_stream_stops_at_unhandled_event
            [Event.mk "ADDED" (running_at "db" "10.0.0.1")]
            [Event.mk "ADDED" (running_at "web" "10.0.0.2")]
            (Event.mk "DELETED" (without_metadata "10.0.0.1")) None [] ∅ _ _)))).
  - repeat constructor.
  - reflexivity.
Defined.

Lemma handle_event_upserts event_type pod ip m :
  event_type = "ADDED" \/ event_type = "MODIFIED" ->
  well_formed pod = true -> address_of pod = Some ip -> truthy ip = true ->
  exists record,
    extract_pod_metadata pod = Returns record /\
    final (handle_event (Event.mk event_type pod) m) = <[ip := record]> m.
Proof.
  intros Htype Hwf Haddress Htruthy.
  destruct pod as [[meta|] [spec|]
    [[phase pod_ip host_ip start_time conditions]|]]; try discriminate.
  unfold address_of in Haddress. simpl in Haddress. subst pod_ip.
  unfold handle_event, apply_event, bind, with_pod_map_lock, if_truthy; simpl.
  rewrite Htruthy. destruct Htype as [-> | ->]; simpl; eauto.
Qed.

Lemma handle_event_removes pod meta ip m :
  V1Pod.metadata pod = Some meta -> address_of pod = Some ip -> truthy ip = true ->
  final (handle_event (Event.mk "DELETED" pod) m) = delete ip m.
Proof.
  intros Hmeta Haddress Htruthy. unfold address_of in Haddress.
  unfold handle_event, bind, with_pod_map_lock.
  cbn [Event.object Event.type].
  destruct (V1Pod.status pod) as [status|]; [|discriminate].
  cbn in Haddress. rewrite Hmeta. cbn [getattr eval result final trace].
  unfold apply_event.
  change (String.eqb "DELETED" "ADDED" || String.eqb "DELETED" "MODIFIED") with false.
  change (String.eqb "DELETED" "DELETED") with true. cbv iota.
  rewrite Haddress. unfold if_truthy. rewrite Htruthy.
  unfold bind, contains, delitem, log, emit. cbn [result final trace].
  destruct (m !! ip) eqn:Hip; cbn [result final trace]; rewrite ?Hip;
    cbn [result final trace].
  - reflexivity.
  - symmetry. now apply delete_id.
Qed.

(** X11. Created, then deleted: once a created or updated event and then a
    deleted event for the same well-formed pod with a non-empty address
    have been handled, the address is not in the index (whatever it held
    before), the other addresses are as they were, and the lookup endpoint
    answers 404 for the address. *)
Theorem added_then_deleted
    (event_type : string) (pod : V1Pod.t) (ip : string) (m : gmap string Metadata.t) :
  event_type = "ADDED" \/ event_type = "MODIFIED" ->
  well_formed pod = true ->
  address_of pod = Some ip ->
  truthy ip = true ->
  final (handle_event (Event.mk "DELETED" pod)
           (final (handle_event (Event.mk event_type pod) m)))
    = delete ip m /\
  result (get_pod_by_ip (Some ip)
            (final (handle_event (Event.mk "DELETED" pod)
                      (final (handle_event (Event.mk event_type pod) m)))))
    = Returns (ErrorBody ("No pod found with IP " +:+ ip), 404).
Proof.
  intros Htype Hwf Haddress Htruthy.
  assert (Hfinal : final (handle_event (Event.mk "DELETED" pod)
                            (final (handle_event (Event.mk event_type pod) m)))
                   = delete ip m).
  { destruct (handle_event_upserts event_type pod ip m Htype Hwf Haddress Htruthy)
      as (record & _ & ->).
    destruct (V1Pod.metadata pod) as [meta|] eqn:Hmeta.
    - rewrite (handle_event_removes pod meta ip _ Hmeta Haddress Htruthy).
      apply delete_insert_eq.
    - unfold well_formed in Hwf. now rewrite Hmeta in Hwf. }
  split; [exact Hfinal|].
  rewrite Hfinal, (get_pod_by_ip_absent ip); [reflexivity | exact Htruthy |].
  apply lookup_delete_eq.
Qed.

Lemma added_then_deleted_witness :
  final (handle_event (Event.mk "DELETED" (running_at "web" "10.0.0.2"))
           (final (handle_event (Event.mk "ADDED" (running_at "web" "10.0.0.2"))
                     {["10.0.0.2" := record_at "old" "10.0.0.2"]})))
    = delete "10.0.0.2" {["10.0.0.2" := record_at "old" "10.0.0.2"]}.
Proof.
  refine (proj1 (added_then_deleted "ADDED" (running_at "web" "10.0.0.2")
                   "10.0.0.2" _ _ _ _ _)).
  - now left.
  - reflexivity.
  - reflexivity.
  - reflexivity.
Defined.

(** ** The probes and the listing endpoint *)

(** X12. Readiness follows the index: the readiness probe answers 200 with
    the number of entries exactly when the index is not empty, and 503 with
    a count of 0 exactly when it is empty; the health probe answers 200 with
    the number of entries in both cases.  So after a created or updated
    event for a well-formed pod with a non-empty address has been handled,
    the service is ready, whatever the index was. *)
Theorem ready_follows_index
    (event_type : string) (pod : V1Pod.t) (ip : string) (m : gmap string Metadata.t) :
  event_type = "ADDED" \/ event_type = "MODIFIED" ->
  well_formed pod = true ->
  address_of pod = Some ip ->
  truthy ip = true ->
  (result (ready m) = Returns (StatusBody "ready" (size m), 200) <-> m <> ∅) /\
  (result (ready m) = Returns (StatusBody "not ready" 0, 503) <-> m = ∅) /\
  result (health m) = Returns (StatusBody "healthy" (size m), 200) /\
  result (ready (final (handle_event (Event.mk event_type pod) m)))
    = Returns (StatusBody "ready"
                 (size (final (handle_event (Event.mk event_type pod) m))), 200).
Proof.
  intros Htype Hwf Haddress Htruthy.
  assert (Hready : forall m' : gmap string Metadata.t,
            result (ready m')
              = Returns (if (0 <? size m')%nat
                         then (StatusBody "ready" (size m'), 200)
                         else (StatusBody "not ready" 0, 503))).
  { intros m'. unfold ready, bind, len; simpl.
    now destruct (0 <? size m')%nat. }
  split; [|split; [|split]].
  - rewrite Hready, <- map_size_non_empty_iff.
    destruct (Nat.ltb_spec 0 (size m)); split; try lia; try discriminate; auto.
  - rewrite Hready, <- map_size_empty_iff.
    destruct (Nat.ltb_spec 0 (size m)); split; try lia; try discriminate; auto.
  - reflexivity.
  - destruct (handle_event_upserts event_type pod ip m Htype Hwf Haddress Htruthy)
      as (record & _ & ->).
    rewrite Hready.
    assert (size (<[ip := record]> m) <> 0%nat) as Hsize.
    { apply map_size_non_empty_iff, insert_non_empty. }
    destruct (Nat.ltb_spec 0 (size (<[ip := record]> m))); [reflexivity | lia].
Qed.

Lemma ready_follows_index_witness :
  result (ready (final (handle_event (Event.mk "ADDED" (running_at "web" "10.0.0.2")) ∅)))
    = Returns (StatusBody "ready"
                 (size (final (handle_event
                                 (Event.mk "ADDED" (running_at "web" "10.0.0.2")) ∅))),
               200).
Proof.
  refine (proj2 (proj2 (proj2 (ready_follows_index "ADDED"
            (running_at "web" "10.0.0.2") "10.0.0.2" ∅ _ _ _ _)))).
  - now left.
  - reflexivity.
  - reflexivity.
  - reflexivity.
Defined.

(** X13. The listing endpoint: it always answers 200, leaves the index as
    it is, and reports as [count] the number of the entries it returns.
    With a non-empty [namespace] it returns exactly the entries of the index
    whose record is in that namespace (possibly none); with no [namespace],
    or an empty one, it returns the whole index. *)
Theorem get_all_pods_lists (namespace : option string) (m : gmap string Metadata.t) :
  exists pods,
    get_all_pods namespace m
      = Run (Returns (PodsBody pods (size pods), 200)) m
          (Acquire :: Items
             :: match namespace with
                | Some ns => if truthy ns then [] else [Len]
                | None => [Len]
                end ++ [Release]) /\
    (forall ip record,
       pods !! ip = Some record <->
       m !! ip = Some record /\
       match namespace with
       | Some ns => truthy ns = true -> Metadata.namespace record = Some ns
       | None => True
       end).
Proof.
  unfold get_all_pods, with_pod_map_lock, bind, items, len; simpl.
  destruct namespace as [ns|]; [destruct (truthy ns) eqn:Hns|]; simpl.
  - eexists. split; [reflexivity|]. intros ip record.
    rewrite map_lookup_filter_Some. simpl. intuition.
  - exists m. split; [reflexivity|]. intros ip record.
    intuition discriminate.
  - exists m. split; [reflexivity|]. intros ip record. tauto.
Qed.

(** ** Entries of the index *)

(** X14. Every entry is served, and no entry is stored under the empty
    address: from an index without the empty key, whatever the server lists
    and streams, the index after the run has no empty key either, and for
    each of its entries the lookup endpoint, asked for the key, answers 200
    with the record. *)
Theorem every_entry_is_served
    (listing : outcome (list V1Pod.t)) (sessions : list Session.t)
    (m : gmap string Metadata.t) (address : string) (record : Metadata.t) :
  m !! "" = None ->
  final (watch_pods listing sessions m) !! address = Some record ->
  final (watch_pods listing sessions m) !! "" = None /\
  result (get_pod_by_ip (Some address) (final (watch_pods listing sessions m)))
    = Returns (PodBody record, 200).
Proof.
  intros Hm Hentry.
  assert (Hempty : final (watch_pods listing sessions m) !! "" = None).
  { clear Hentry. revert m Hm.
    apply (invariant_watch_pods (fun m => m !! "" = None) (fun _ => True)).
    - intros pod ip record' m _ _ Htruthy _ Hm.
      apply truthy_nonempty in Htruthy. now rewrite lookup_insert_ne.
    - intros ip m _ Hm. apply lookup_delete_None. now right.
    - apply Forall_forall. done. }
  split; [exact Hempty|].
  rewrite (get_pod_by_ip_present address record); [reflexivity | | exact Hentry].
  apply truthy_nonempty. intros ->. congruence.
Qed.

Lemma every_entry_is_served_witness :
  result (get_pod_by_ip (Some "10.0.0.2")
            (final (watch_pods (Returns [running_at "db" "10.0.0.1"])
                      [Session.mk [Event.mk "ADDED" (running_at "web" "10.0.0.2")] None]
                      ∅)))
    = Returns (PodBody (record_at "web" "10.0.0.2"), 200).
Proof.
  refine (proj2 (every_entry_is_served (Returns [running_at "db" "10.0.0.1"])
                   [Session.mk [Event.mk "ADDED" (running_at "web" "10.0.0.2")] None]
                   ∅ "10.0.0.2" (record_at "web" "10.0.0.2") _ _)).
  - reflexivity.
  - reflexivity.
Defined.

(** X15. No entry is made up: every entry of the index after a run of the
    watcher either was in the index before the run, or is the record that
    the extractor returns for one of the pods that the server listed or
    streamed, stored under the address of that pod. *)
Theorem entries_come_from_given_pods
    (listing : outcome (list V1Pod.t)) (sessions : list Session.t)
    (m : gmap string Metadata.t) (address : string) (record : Metadata.t) :
  final (watch_pods listing sessions m) !! address = Some record ->
  m !! address = Some record \/
  exists pod,
    In pod (pods_given listing sessions) /\
    address_of pod = Some address /\
    extract_pod_metadata pod = Returns record.
Proof.
  revert address record.
  change ((fun m' => forall address record,
             m' !! address = Some record ->
             m !! address = Some record \/
             exists pod,
               In pod (pods_given listing sessions) /\
               address_of pod = Some address /\
               extract_pod_metadata pod = Returns record)
            (final (watch_pods listing sessions m))).
  apply (invariant_watch_pods _ (fun pod => In pod (pods_given listing sessions))).
  - intros pod ip record m' Hin Haddress _ Hrecord Hm' address record'.
    destruct (decide (ip = address)) as [->|Hne].
    + rewrite lookup_insert_eq. intros [= <-]. right. eauto.
    + rewrite lookup_insert_ne by done. apply Hm'.
  - intros ip m' _ Hm' address record' Hlookup.
    apply lookup_delete_Some in Hlookup as [_ Hlookup]. now apply Hm'.
  - apply Forall_forall. intros pod Hin. now apply list_elem_of_In.
  - auto.
Qed.

Lemma entries_come_from_given_pods_witness :
  (∅ : gmap string Metadata.t) !! "10.0.0.2" = Some (record_at "web" "10.0.0.2") \/
  exists pod,
    In pod (pods_given (Returns [running_at "db" "10.0.0.1"])
              [Session.mk [Event.mk "ADDED" (running_at "web" "10.0.0.2")] None]) /\
    address_of pod = Some "10.0.0.2" /\
    extract_pod_metadata pod = Returns (record_at "web" "10.0.0.2").
Proof.
  apply (entries_come_from_given_pods (Returns [running_at "db" "10.0.0.1"])
           [Session.mk [Event.mk "ADDED" (running_at "web" "10.0.0.2")] None] ∅).
  reflexivity.
Defined.

(** ** The backoff *)

Lemma consume_stream_handled s m :
  Forall (fun event => handled event = true) (Session.events s) ->
  result (consume_stream s m)
    = match Session.ending s with
      | Some e => Raises e
      | None => Returns tt
      end.
Proof.
  intros Hevents. unfold consume_stream.
  rewrite result_bind. cbn [emit result final].
  rewrite result_bind, (for_each_handle_event_returns _ _ Hevents).
  rewrite result_bind. cbn [emit result final].
  now destruct (Session.ending s).
Qed.

(** X16. One backoff for each session that raised: when the loop body
    raises on none of the events, the stream loop sleeps exactly as many
    times as there are sessions that ended by raising: none after a
    session that ended by exhaustion. *)
Theorem watch_stream_sleeps_once_per_raise
    (sessions : list Session.t) (m : gmap string Metadata.t) :
  Forall (fun s => Forall (fun event => handled event = true) (Session.events s))
    sessions ->
  count is_sleep (trace (watch_stream sessions m))
    = length (List.filter raised sessions).
Proof.
  intros Hsessions. revert m.
  induction Hsessions as [|s rest Hs _ IH]; intros m; [reflexivity|].
  rewrite watch_stream_cons. cbn [trace].
  rewrite !count_app, IH, consume_stream_trace, (consume_stream_handled s m Hs).
  change (count is_sleep (OpenStream :: ?l)) with (count is_sleep l).
  rewrite count_app, (count_for_each_handle_event is_sleep)
    by (try reflexivity; intros; repeat split).
  rewrite (for_each_handle_event_returns _ _ Hs).
  simpl. unfold raised. now destruct (Session.ending s).
Qed.

Lemma watch_stream_sleeps_once_per_raise_witness :
  count is_sleep
    (trace (watch_stream
              [Session.mk [Event.mk "ADDED" (running_at "web" "10.0.0.2")]
                          (Some (ApiError "connection reset"));
               Session.mk [] None;
               Session.mk [Event.mk "DELETED" (running_at "web" "10.0.0.2")]
                          (Some (ApiError "timeout"))] ∅))
    = 2%nat.
Proof.
  apply (watch_stream_sleeps_once_per_raise
           [Session.mk [Event.mk "ADDED" (running_at "web" "10.0.0.2")]
                       (Some (ApiError "connection reset"));
            Session.mk [] None;
            Session.mk [Event.mk "DELETED" (running_at "web" "10.0.0.2")]
                       (Some (ApiError "timeout"))] ∅).
  repeat constructor.
Defined.

(** ** The extractor, in general *)

(** X17. The extractor raises exactly on a pod that lacks one of its three
    parts, and the [AttributeError] is for the first attribute the function
    reads of the first missing part: [name] when the metadata is missing,
    else [node_name] when the spec is missing, else [phase] when the status
    is missing.  On a pod with the three parts it returns. *)
Theorem extract_pod_metadata_raises_on_missing_part (pod : V1Pod.t) :
  match V1Pod.metadata pod, V1Pod.spec pod, V1Pod.status pod with
  | None, _, _ => extract_pod_metadata pod = Raises (AttributeError "name")
  | Some _, None, _ => extract_pod_metadata pod = Raises (AttributeError "node_name")
  | Some _, Some _, None => extract_pod_metadata pod = Raises (AttributeError "phase")
  | Some _, Some _, Some _ => exists record, extract_pod_metadata pod = Returns record
  end.
Proof.
  unfold extract_pod_metadata.
  destruct (V1Pod.metadata pod), (V1Pod.spec pod), (V1Pod.status pod);
    simpl; eauto.
Qed.

(** X18. The record mirrors the pod: the scalar attributes are copied;
    labels and annotations that are present are kept as they are; a start
    time that is present is stored in ISO format; and the conditions, the
    containers and the ports of each container are kept one for one, in the
    same order and number, with their attributes. *)
Theorem extract_pod_metadata_mirrors_pod
    (pod : V1Pod.t) (meta : V1ObjectMeta.t) (spec : V1PodSpec.t)
    (status : V1PodStatus.t) (record : Metadata.t) :
  V1Pod.metadata pod = Some meta ->
  V1Pod.spec pod = Some spec ->
  V1Pod.status pod = Some status ->
  extract_pod_metadata pod = Returns record ->
  (Metadata.name record = V1ObjectMeta.name meta /\
   Metadata.namespace record = V1ObjectMeta.namespace meta /\
   Metadata.uid record = V1ObjectMeta.uid meta /\
   Metadata.node_name record = V1PodSpec.node_name spec /\
   Metadata.phase record = V1PodStatus.phase status /\
   Metadata.pod_ip record = V1PodStatus.pod_ip status /\
   Metadata.host_ip record = V1PodStatus.host_ip status) /\
  (forall labels, V1ObjectMeta.labels meta = Some labels ->
     Metadata.labels record = labels) /\
  (forall annotations, V1ObjectMeta.annotations meta = Some annotations ->
     Metadata.annotations record = annotations) /\
  (forall t, V1PodStatus.start_time status = Some t ->
     Metadata.start_time record = Some (datetime.isoformat t)) /\
  (forall conditions, V1PodStatus.conditions status = Some conditions ->
     length (Metadata.conditions record) = length conditions /\
     forall i condition, conditions !! i = Some condition ->
       exists entry,
         Metadata.conditions record !! i = Some entry /\
         Condition.type entry = V1PodCondition.type condition /\
         Condition.status entry = V1PodCondition.status condition /\
         Condition.reason entry = V1PodCondition.reason condition /\
         Condition.message entry = V1PodCondition.message condition) /\
  (forall containers, V1PodSpec.containers spec = Some containers ->
     length (Metadata.containers record) = length containers /\
     forall i container, containers !! i = Some container ->
       exists entry,
         Metadata.containers record !! i = Some entry /\
         Container.name entry = V1Container.name container /\
         Container.image entry = V1Container.image container /\
         forall ports, V1Container.ports container = Some ports ->
           length (Container.ports entry) = length ports /\
           forall j p, ports !! j = Some p ->
             exists port,
               Container.ports entry !! j = Some port /\
               Port.containerPort port = V1ContainerPort.container_port p /\
               Port.protocol port = V1ContainerPort.protocol p).
Proof.
  intros Hmeta Hspec Hstatus. unfold extract_pod_metadata.
  rewrite Hmeta, Hspec, Hstatus. simpl. intros [= <-]. simpl.
  split; [now repeat split|].
  split; [now intros labels ->|].
  split; [now intros annotations ->|].
  split; [now intros t ->|].
  split.
  - intros conditions ->. simpl. split; [apply length_map|].
    intros i condition Hi. exists (extract_condition condition).
    change (map extract_condition conditions) with (extract_condition <$> conditions).
    rewrite list_lookup_fmap, Hi. now repeat split.
  - intros containers ->. simpl. split; [apply length_map|].
    intros i container Hi. exists (extract_container container).
    change (map extract_container containers) with (extract_container <$> containers).
    rewrite list_lookup_fmap, Hi.
    split; [reflexivity|]. split; [reflexivity|]. split; [reflexivity|].
    intros ports Hports. simpl. rewrite Hports. simpl.
    split; [apply length_map|].
    intros j p Hj. exists (extract_port p).
    change (map extract_port ports) with (extract_port <$> ports).
    rewrite list_lookup_fmap, Hj. now repeat split.
Qed.

Lemma extract_pod_metadata_mirrors_pod_witness :
  exists record,
    extract_pod_metadata full = Returns record /\
    Metadata.labels record = {["app" := "web"]} /\
    Metadata.start_time record = Some "2024-01-01T00:00:00+00:00" /\
    length (Metadata.containers record) = 2%nat.
Proof.
  destruct (extract_pod_metadata full) as [record|e] eqn:Hrecord;
    [|discriminate Hrecord].
  exists record.
  destruct (extract_pod_metadata_mirrors_pod full _ _ _ record
              eq_refl eq_refl eq_refl Hrecord)
    as (_ & Hlabels & _ & Hstart & _ & Hcontainers).
  split; [reflexivity|].
  split; [exact (Hlabels _ eq_refl)|].
  split; [exact (Hstart _ eq_refl)|].
  exact (proj1 (Hcontainers _ eq_refl)).
Defined.

(** ** Loading the configuration *)

Ltac by_cases :=
  repeat match goal with
         | |- _ /\ _ => split
         | |- _ <-> _ => split
         | |- forall _, _ => intro
         | H : _ \/ _ |- _ => destruct H
         | H : _ /\ _ |- _ => destruct H
         | H : exists _, _ |- _ => destruct H
         | H : False |- _ => destruct H
         | H : _ = _ |- _ => discriminate H
         | H : _ = _ |- _ => injection H as H
         end;
  subst; simpl; eauto 7.

(** X19. How the configuration is found: the in-cluster loader is always
    tried first, and the local kubeconfig is tried exactly when the
    in-cluster loader raised [ConfigException].  The function returns
    exactly when one of the loaders that were tried loaded a configuration;
    the process exits, with code 1 and an error log, exactly when both
    raised [ConfigException]; an exception of another class raised by a
    loader is handed on as it is, without a log and without an exit. *)
Theorem load_kubernetes_config_outcomes (incluster local : loading) :
  (exists t, snd (load_kubernetes_config incluster local) = LoadIncluster :: t) /\
  (In LoadKubeConfig (snd (load_kubernetes_config incluster local))
     <-> incluster = ConfigException) /\
  (fst (load_kubernetes_config incluster local) = Configured
     <-> incluster = Loaded \/ (incluster = ConfigException /\ local = Loaded)) /\
  (forall code, fst (load_kubernetes_config incluster local) = SystemExit code
     <-> code = 1 /\ incluster = ConfigException /\ local = ConfigException) /\
  (In (StartupLog ERROR) (snd (load_kubernetes_config incluster local))
     <-> exists code, fst (load_kubernetes_config incluster local) = SystemExit code) /\
  (forall e, fst (load_kubernetes_config incluster local) = Propagated e
     <-> incluster = OtherException e \/
         (incluster = ConfigException /\ local = OtherException e)).
Proof.
  destruct incluster as [| |e1], local as [| |e2]; simpl; by_cases.
Qed.
